(** * remote-dump1090: the relay and its connector, as interaction trees

    The program of [remote_dump1090.c] talks to the kernel and the C library
    and, once connected, loops for ever.  Each function of the source is
    embedded as an interaction tree over the calls it makes; a run is the
    tree executed against a script of the answers the environment gives. *)

From Stdlib Require Import ZArith List String Ascii Bool Lia.
From Stdlib.Init Require Import Byte.
From ITree Require Import ITree.
Import ListNotations.
Import ITreeNotations.
Local Open Scope Z_scope.
Local Open Scope list_scope.
Local Open Scope itree_scope.

Set Implicit Arguments.

(** ** Constants *)

(** The three tunables of the source ([#define]s). *)
Definition BUFFER_SIZE : Z := 1024.
Definition SOCKET_TIMEOUT : Z := 5.
Definition RETRY_SLEEP : Z := 1.

(** Values of the system headers (Linux) the source names. *)
Definition AF_INET : Z := 2.
Definition SOCK_STREAM : Z := 1.
Definition SOL_SOCKET : Z := 1.
Definition SIGPIPE : Z := 13.
Definition LOG_ERR : Z := 3.
Definition LOG_WARNING : Z := 4.

(** [PACKAGE_STRING] of config.h: [AC_INIT([remote-dump1090], [0], ...)]. *)
Definition PACKAGE_STRING : string := "remote-dump1090 0".

(** ** Data *)

Inductive sockopt := SO_RCVTIMEO | SO_SNDTIMEO.

Record timeval := { tv_sec : Z; tv_usec : Z }.

(** An IPv4 address, [struct in_addr], as its 32-bit number. *)
Definition in_addr := Z.

(** [struct hostent], reduced to the field the source reads: [h_addr_list]
    is a null pointer ([None]) or a null-terminated array of addresses. *)
Record hostent := { h_addr_list : option (list in_addr) }.

Record sockaddr_in :=
  { sin_family : Z; sin_port : Z; sin_addr : in_addr }.

(** [htons]: the 16-bit port number carried in the address. *)
Definition htons (hostshort : Z) : Z := hostshort mod 65536.

Inductive FILE := stdout | stderr.

Inductive sighandler := SIG_DFL | SIG_IGN.

(** Arguments of a printf-style call.  The texts of [strerror(errno)] and
    [hstrerror(h_errno)] belong to the C library and stay symbolic.  Format
    strings are kept as the source spells them, escape sequences
    included. *)
Inductive fmt_arg :=
| ArgS (s : string)
| ArgD (n : Z)
| ArgC (c : ascii)
| ArgAddr (a : in_addr)
| ArgStrerror
| ArgHstrerror.

(** ** The calls the program makes *)

Variant sysE : Type -> Type :=
| Signal (signum : Z) (handler : sighandler) : sysE unit
| Socket (domain type protocol : Z) : sysE Z
| Setsockopt (fd level : Z) (optname : sockopt) (optval : timeval) : sysE Z
| Gethostbyname2 (name : string) (af : Z) : sysE (option hostent)
| Connect (fd : Z) (addr : sockaddr_in) : sysE Z
| Sleep (seconds : Z) : sysE unit
| Read (fd : Z) (count : Z) : sysE (Z * list byte)
| Write (fd : Z) (bytes : list byte) : sysE Z
| Close (fd : Z) : sysE unit
| Vsyslog (priority : Z) (format : string) (args : list fmt_arg) : sysE unit
| Fprintf (stream : FILE) (format : string) (args : list fmt_arg) : sysE unit
| Vfprintf (stream : FILE) (format : string) (args : list fmt_arg) : sysE unit
| Exit (status : Z) : sysE void
| Undefined (what : string) : sysE void.

(** [Undefined] marks a point where the behaviour of the C program is not
    defined; like [Exit] it has no answer. *)
Definition call {T} (e : sysE T) : itree sysE T := ITree.trigger e.

(** [exit] does not return: whatever follows it is never reached. *)
Definition exit {R} (status : Z) : itree sysE R :=
  v <- call (Exit status) ;; match v : void with end.

Definition undefined {R} (what : string) : itree sysE R :=
  v <- call (Undefined what) ;; match v : void with end.

Definition printf (format : string) (args : list fmt_arg) : itree sysE unit :=
  call (Fprintf stdout format args).

(** ** xlog *)

Definition xlog (send_to_syslog : bool) (priority : Z) (format : string)
    (args : list fmt_arg) : itree sysE unit :=
  if send_to_syslog then
    call (Vsyslog priority format args)
  else
    let level :=
      if priority =? LOG_WARNING then "warning"%string
      else if priority =? LOG_ERR then "error"%string
      else "unknown"%string in
    call (Fprintf stderr "%s: " [ArgS level]) ;;
    call (Vfprintf stderr format args).

(** ** socket_connect *)

(** [do { fd = socket(...); if (fd < 0) { xlog; sleep; } } while (fd < 0);] *)
Definition create_socket (send_to_syslog : bool) (host : string) (port : Z)
  : itree sysE Z :=
  ITree.iter (fun _ : unit =>
    fd <- call (Socket AF_INET SOCK_STREAM 0) ;;
    if fd <? 0 then
      xlog send_to_syslog LOG_WARNING
        "Failed to create socket for %s:%d, retrying: %s\n"
        [ArgS host; ArgD port; ArgStrerror] ;;
      call (Sleep RETRY_SLEEP) ;;
      Ret (inl tt)
    else Ret (inr fd)) tt.

(** [do { rv = connect(fd, &addr, ...); if (rv < 0) { xlog; sleep; } }
    while (rv < 0);] *)
Definition connect_retry (send_to_syslog : bool) (host : string) (port : Z)
    (fd : Z) (addr : sockaddr_in) : itree sysE unit :=
  ITree.iter (fun _ : unit =>
    rv <- call (Connect fd addr) ;;
    if rv <? 0 then
      xlog send_to_syslog LOG_WARNING
        "Failed to connect to %s:%d, retrying: %s\n"
        [ArgS host; ArgD port; ArgStrerror] ;;
      call (Sleep RETRY_SLEEP) ;;
      Ret (inl tt)
    else Ret (inr tt)) tt.

Definition socket_connect (send_to_syslog : bool) (host : string) (port : Z)
  : itree sysE Z :=
  fd <- create_socket send_to_syslog host port ;;
  let timeout := {| tv_sec := SOCKET_TIMEOUT; tv_usec := 0 |} in
  rv <- call (Setsockopt fd SOL_SOCKET SO_RCVTIMEO timeout) ;;
  (if rv <? 0 then
     xlog send_to_syslog LOG_ERR
       "Failed to set socket read timeout for %s:%d: %s\n"
       [ArgS host; ArgD port; ArgStrerror] ;;
     exit 1
   else Ret tt) ;;
  rv <- call (Setsockopt fd SOL_SOCKET SO_SNDTIMEO timeout) ;;
  (if rv <? 0 then
     xlog send_to_syslog LOG_ERR
       "Failed to set socket write timeout for %s:%d: %s\n"
       [ArgS host; ArgD port; ArgStrerror] ;;
     exit 1
   else Ret tt) ;;
  h <- call (Gethostbyname2 host AF_INET) ;;
  h <- match h with
       | None =>
           xlog send_to_syslog LOG_ERR
             "Failed to parse hostname for %s: %s\n" [ArgS host; ArgHstrerror] ;;
           exit 1
       | Some h => Ret h
       end ;;
  addr_list <- match h_addr_list h with
               | None | Some [] =>
                   xlog send_to_syslog LOG_ERR
                     "Can't find any IPv4 address for %s\n" [ArgS host] ;;
                   exit 1
               | Some (a0 :: others) => Ret (a0, others)
               end ;;
  let '(a0, others) := addr_list in
  match others with
  | _ :: _ =>
      xlog send_to_syslog LOG_WARNING
        "Hostname with more than one IPv4 address, using the first one detected: %s\n"
        [ArgAddr a0]
  | [] => Ret tt
  end ;;
  let addr :=
    {| sin_family := AF_INET; sin_port := htons port; sin_addr := a0 |} in
  connect_retry send_to_syslog host port fd addr ;;
  Ret fd.

(** ** main_loop *)

(** The variables of [main_loop] that change: the two descriptors and the
    contents of [buf]. *)
Record relay := { src : Z; dst : Z; buf : list byte }.

(** What [read] leaves in the buffer: the bytes the kernel stored, in front
    of what it did not overwrite. *)
Definition store (b data : list byte) : list byte :=
  firstn (List.length b) (data ++ skipn (List.length data) b).

(** One pass through the body of [while (1)]. *)
Definition relay_step (send_to_syslog : bool) (src_host : string)
    (src_port : Z) (dst_host : string) (dst_port : Z) (st : relay)
  : itree sysE (relay + relay) :=
  '(rv, data) <- call (Read (src st) BUFFER_SIZE) ;;
  let b := store (buf st) data in
  if rv <=? 0 then
    call (Close (src st)) ;;
    s <- socket_connect send_to_syslog src_host src_port ;;
    Ret (inl {| src := s; dst := dst st; buf := b |})
  else
    rv <- call (Write (dst st) (firstn (Z.to_nat rv) b)) ;;
    if rv <=? 0 then
      call (Close (dst st)) ;;
      d <- socket_connect send_to_syslog dst_host dst_port ;;
      Ret (inl {| src := src st; dst := d; buf := b |})
    else
      Ret (inl {| src := src st; dst := dst st; buf := b |}).

(** [buf] is not initialised in the source; it is taken full of zeros
    here.  No byte of it is handed to [write] before [read] has stored
    it, as long as [read] keeps its contract. *)
Definition main_loop (send_to_syslog : bool) (src_host : string)
    (src_port : Z) (dst_host : string) (dst_port : Z) : itree sysE unit :=
  d <- socket_connect send_to_syslog dst_host dst_port ;;
  s <- socket_connect send_to_syslog src_host src_port ;;
  let b := repeat x00 (Z.to_nat BUFFER_SIZE) in
  st <- ITree.iter
          (relay_step send_to_syslog src_host src_port dst_host dst_port)
          {| src := s; dst := d; buf := b |} ;;
  call (Close (src st)) ;;
  call (Close (dst st)).

(** ** strtoul and the conversion to [int] *)

(** [strtoul(nptr, NULL, 10)] of the C library (LP64: [unsigned long] has 64
    bits): white space is skipped, one sign is accepted, then the longest
    run of decimal digits is read; no digit gives 0, a value that does not
    fit gives [ULONG_MAX], a minus sign negates in [unsigned long]. *)
Definition isspace (c : ascii) : bool :=
  let n := Z.of_nat (nat_of_ascii c) in
  (n =? 32) || ((9 <=? n) && (n <=? 13)).

Definition digit (c : ascii) : option Z :=
  let n := Z.of_nat (nat_of_ascii c) in
  if (48 <=? n) && (n <=? 57) then Some (n - 48) else None.

Fixpoint skip_spaces (s : string) : string :=
  match s with
  | String c s' => if isspace c then skip_spaces s' else s
  | EmptyString => s
  end.

Fixpoint read_digits (s : string) (acc : Z) : Z :=
  match s with
  | String c s' =>
      match digit c with
      | Some d => read_digits s' (10 * acc + d)
      | None => acc
      end
  | EmptyString => acc
  end.

Definition ULONG_MAX : Z := 2 ^ 64 - 1.

Definition strtoul (nptr : string) : Z :=
  let s := skip_spaces nptr in
  let '(negative, s) :=
    match s with
    | String c s' =>
        if Ascii.eqb c "-" then (true, s')
        else if Ascii.eqb c "+" then (false, s')
        else (false, s)
    | EmptyString => (false, s)
    end in
  let v := read_digits s 0 in
  if v >? ULONG_MAX then ULONG_MAX
  else if negative then (- v) mod 2 ^ 64
  else v.

(** The assignment of an [unsigned long] to an [int]: the low 32 bits, read
    in two's complement. *)
Definition to_int (u : Z) : Z :=
  let m := u mod 2 ^ 32 in
  if m <? 2 ^ 31 then m else m - 2 ^ 32.

(** ** main *)

Definition usage_text : string :=
  "usage:\n    remote-dump1090 [-h] [-v] [-l] [-s SRC_PORT] [-d DST_PORT] SRC_HOST DST_HOST\n".

Definition help_text : string :=
  "\nremote-dump1090 - A helper to send data from a dump1090 instance to another instance\n\nusage:\n    remote-dump1090 [-h] [-v] [-l] [-s SRC_PORT] [-d DST_PORT] SRC_HOST DST_HOST\n\npositional arguments:\n    SRC_HOST      source instance host name\n    DST_HOST      destination instance host name\n\noptional arguments:\n    -h            show this help message and exit\n    -v            show version and exit\n    -l            send output messages to syslog\n    -s SRC_PORT   source instance port. defaults to 30002\n    -d DST_PORT   destination instance port. defaults to 30001\n".

Definition print_usage : itree sysE unit := printf usage_text [].

Definition print_help : itree sysE unit := printf help_text [].

(** [argv[i][1]] of an argument whose first character is known to exist:
    the second character, or the terminating NUL. *)
Definition second_char (arg : string) : ascii :=
  match arg with
  | String _ (String c _) => c
  | _ => zero
  end.

(** [argv[i] + 2]: the argument without its first two characters. *)
Definition after_flag (arg : string) : string :=
  match arg with
  | String _ (String _ s) => s
  | _ => EmptyString
  end.

Definition starts_with_dash (arg : string) : bool :=
  match arg with
  | String c _ => Ascii.eqb c "-"
  | EmptyString => false
  end.

(** The [for] loop over [argv[1..argc-1]] and what follows it.  [args] is
    what is left of [argv] from index [i]; the locals of [main] are carried
    along.  A [-s] or [-d] without attached value takes [argv[++i]], which
    is the null pointer [argv[argc]] when the flag is the last argument. *)
Fixpoint scan_args (args : list string) (send_to_syslog : bool)
    (src_host dst_host : option string) (src_port dst_port : Z)
    {struct args} : itree sysE Z :=
  match args with
  | arg :: args' =>
      if starts_with_dash arg then
        let c := second_char arg in
        if Ascii.eqb c "h" then print_help ;; Ret 0
        else if Ascii.eqb c "v" then
          printf "%s\n" [ArgS PACKAGE_STRING] ;; Ret 0
        else if Ascii.eqb c "l" then
          scan_args args' true src_host dst_host src_port dst_port
        else if Ascii.eqb c "s" then
          match after_flag arg with
          | String _ _ as value =>
              scan_args args' send_to_syslog src_host dst_host
                (to_int (strtoul value)) dst_port
          | EmptyString =>
              match args' with
              | value :: args'' =>
                  scan_args args'' send_to_syslog src_host dst_host
                    (to_int (strtoul value)) dst_port
              | [] => undefined "strtoul(NULL, NULL, 10)"
              end
          end
        else if Ascii.eqb c "d" then
          match after_flag arg with
          | String _ _ as value =>
              scan_args args' send_to_syslog src_host dst_host
                src_port (to_int (strtoul value))
          | EmptyString =>
              match args' with
              | value :: args'' =>
                  scan_args args'' send_to_syslog src_host dst_host
                    src_port (to_int (strtoul value))
              | [] => undefined "strtoul(NULL, NULL, 10)"
              end
          end
        else
          print_usage ;;
          xlog send_to_syslog LOG_ERR "invalid argument: -%c\n" [ArgC c] ;;
          Ret 2
      else
        match src_host, dst_host with
        | None, _ =>
            scan_args args' send_to_syslog (Some arg) dst_host src_port dst_port
        | Some _, None =>
            scan_args args' send_to_syslog src_host (Some arg) src_port dst_port
        | Some _, Some _ =>
            scan_args args' send_to_syslog src_host dst_host src_port dst_port
        end
  | [] =>
      match src_host, dst_host with
      | None, _ =>
          print_usage ;;
          xlog send_to_syslog LOG_ERR "SRC_HOST is required\n" [] ;;
          Ret 2
      | Some _, None =>
          print_usage ;;
          xlog send_to_syslog LOG_ERR "DST_HOST is required\n" [] ;;
          Ret 2
      | Some src_host, Some dst_host =>
          main_loop send_to_syslog src_host src_port dst_host dst_port ;;
          Ret 0
      end
  end.

Definition main (argv : list string) : itree sysE Z :=
  call (Signal SIGPIPE SIG_IGN) ;;
  scan_args (tl argv) false None None 30002 30001.

(** ** Running a program against the environment *)

(** What the environment answers, in the order of the calls that need an
    answer. *)
Inductive answer :=
| AInt (z : Z)
| AHost (h : option hostent)
| ARead (rv : Z) (data : list byte).

Definition script := list answer.

(** A call of the trace, with what it returned; [Halt] is a call that does
    not return. *)
Inductive item :=
| Did (T : Type) (e : sysE T) (r : T)
| Halt (T : Type) (e : sysE T).
Arguments Did {T} e r.
Arguments Halt {T} e.

Definition trace := list item.

(** How a run stops: the program returned; the process called [exit]; the
    program did what C leaves undefined; the script has no answer for the
    call the program waits on; the fuel ran out. *)
Inductive outcome (R : Type) :=
| Returned (r : R)
| Exited (status : Z)
| Crashed
| Pending
| OutOfFuel.
Arguments Returned {R} r.
Arguments Exited {R} status.
Arguments Crashed {R}.
Arguments Pending {R}.
Arguments OutOfFuel {R}.

(** A run: its trace, what it left of the script and of the fuel, and how
    it stopped. *)
Record result (R : Type) :=
  { events : trace; rest : script; spare : nat; out : outcome R }.

(** What the environment does with a call: it answers and goes on with
    the rest of the script, it has no answer, or the call does not
    return. *)
Inductive reply (T : Type) :=
| Reply (r : T) (s : script)
| NoAnswer
| Stops (o : outcome void).
Arguments NoAnswer {T}.
Arguments Stops {T} o.

Definition answer_to {T} (e : sysE T) (s : script) : reply T :=
  match e in sysE T return reply T with
  | Socket _ _ _ | Setsockopt _ _ _ _ | Connect _ _ | Write _ _ =>
      match s with AInt z :: s' => Reply z s' | _ => NoAnswer end
  | Gethostbyname2 _ _ =>
      match s with AHost h :: s' => Reply h s' | _ => NoAnswer end
  | Read _ _ =>
      match s with ARead rv data :: s' => Reply (rv, data) s' | _ => NoAnswer end
  | Signal _ _ | Sleep _ | Close _ | Vsyslog _ _ _ | Fprintf _ _ _
  | Vfprintf _ _ _ => Reply tt s
  | Exit status => Stops (Exited status)
  | Undefined _ => Stops Crashed
  end.

Definition cast {R} (o : outcome void) : outcome R :=
  match o with
  | Returned v => match v with end
  | Exited c => Exited c
  | Crashed => Crashed
  | Pending => Pending
  | OutOfFuel => OutOfFuel
  end.

Definition before {R} (it : item) (r : result R) : result R :=
  {| events := it :: events r; rest := rest r; spare := spare r; out := out r |}.

(** [exec fuel t s] runs [t] against the script [s], for [fuel] steps at
    most: a step is a call or a passage through the head of a loop. *)
Fixpoint exec {R} (fuel : nat) (t : itree sysE R) (s : script) : result R :=
  match fuel with
  | O => {| events := []; rest := s; spare := O; out := OutOfFuel |}
  | S n =>
      match observe t with
      | RetF r => {| events := []; rest := s; spare := fuel; out := Returned r |}
      | TauF t' => exec n t' s
      | VisF e k =>
          match answer_to e s with
          | Reply r s' => before (Did e r) (exec n (k r) s')
          | NoAnswer => {| events := []; rest := s; spare := n; out := Pending |}
          | Stops o =>
              {| events := [Halt e]; rest := s; spare := n; out := cast o |}
          end
      end
  end.


Definition prefix {R} (tr : trace) (r : result R) : result R :=
  {| events := tr ++ events r; rest := rest r; spare := spare r; out := out r |}.

(** Sequencing of runs: the second program starts with the fuel and the
    script the first one left, if the first one returned. *)
Definition andthen {A B} (r : result A) (k : A -> nat -> script -> result B)
  : result B :=
  match out r with
  | Returned x => prefix (events r) (k x (spare r) (rest r))
  | Exited c =>
      {| events := events r; rest := rest r; spare := spare r; out := Exited c |}
  | Crashed =>
      {| events := events r; rest := rest r; spare := spare r; out := Crashed |}
  | Pending =>
      {| events := events r; rest := rest r; spare := spare r; out := Pending |}
  | OutOfFuel =>
      {| events := events r; rest := rest r; spare := spare r; out := OutOfFuel |}
  end.


(** ** Specifications of programs over their runs *)

(** [sat t P Q]: wherever a run of [t] stops, its trace satisfies [P]; when
    it stops because [t] returned [x], the trace satisfies [Q x] as well. *)
Definition sat {R} (t : itree sysE R) (P : trace -> Prop)
    (Q : R -> trace -> Prop) : Prop :=
  forall fuel s,
    P (events (exec fuel t s)) /\
    forall x, out (exec fuel t s) = Returned x -> Q x (events (exec fuel t s)).

(** The calls that do not return. *)
Definition halts {T} (e : sysE T) : bool :=
  match e with
  | Exit _ | Undefined _ => true
  | _ => false
  end.

(** A line at warning level, as it shows in a trace: one call of [vsyslog]
    with priority [LOG_WARNING] when messages go to the system log; else the
    word [warning] and then the message, both on standard error. *)
Definition warning_line (send_to_syslog : bool) (format : string)
    (args : list fmt_arg) : trace :=
  if send_to_syslog then
    [Did (Vsyslog LOG_WARNING format args) tt]
  else
    [Did (Fprintf stderr "%s: " [ArgS "warning"]) tt;
     Did (Vfprintf stderr format args) tt].

(** A line at error level: priority [LOG_ERR] on the system log, the word
    [error] in front of the message on standard error. *)
Definition error_line (send_to_syslog : bool) (format : string)
    (args : list fmt_arg) : trace :=
  if send_to_syslog then
    [Did (Vsyslog LOG_ERR format args) tt]
  else
    [Did (Fprintf stderr "%s: " [ArgS "error"]) tt;
     Did (Vfprintf stderr format args) tt].

(** A line at any priority: on standard error the word in front of the
    message is [warning], [error] or, for any other priority, [unknown]. *)
Definition log_items (send_to_syslog : bool) (priority : Z) (format : string)
    (args : list fmt_arg) : trace :=
  if send_to_syslog then
    [Did (Vsyslog priority format args) tt]
  else
    [Did (Fprintf stderr "%s: "
            [ArgS (if priority =? LOG_WARNING then "warning"
                   else if priority =? LOG_ERR then "error"
                   else "unknown")]) tt;
     Did (Vfprintf stderr format args) tt].

Definition xlog_cost (send_to_syslog : bool) : nat :=
  if send_to_syslog then 1%nat else 2%nat.

Definition is_prefix (tr full : trace) : Prop := exists tl, full = tr ++ tl.

(** ** Reading traces *)

(** The calls of the relay itself: reading, writing and closing a
    descriptor.  [socket_connect] makes none of them. *)
Definition quiet (it : item) : Prop :=
  match it with
  | Did e _ | Halt e =>
      match e with
      | Read _ _ | Write _ _ | Close _ => False
      | _ => True
      end
  end.

(** The chunks handed to [write], in the order of the calls. *)
Fixpoint writes (tr : trace) : list (list byte) :=
  match tr with
  | [] => []
  | Did (Write _ bytes) _ :: tr' => bytes :: writes tr'
  | _ :: tr' => writes tr'
  end.

(** The descriptors closed, in the order of the calls. *)
Fixpoint closes (tr : trace) : list Z :=
  match tr with
  | [] => []
  | Did (Close fd) _ :: tr' => fd :: closes tr'
  | _ :: tr' => closes tr'
  end.

(** What a [read] returned, when the item is one. *)
Definition read_of (it : item) : option (Z * list byte) :=
  match it with
  | Did e r =>
      match e in sysE T return T -> option (Z * list byte) with
      | Read _ _ => fun r => Some r
      | _ => fun _ => None
      end r
  | Halt _ => None
  end.

(** Every [read] of the trace with what it returned. *)
Fixpoint reads (tr : trace) : list (Z * list byte) :=
  match tr with
  | [] => []
  | it :: tr' =>
      match read_of it with
      | Some r => r :: reads tr'
      | None => reads tr'
      end
  end.


(** Result of a run in which the program went on as [f] says. *)
Definition map_out {A B} (f : A -> B) (r : result A) : result B :=
  {| events := events r; rest := rest r; spare := spare r;
     out := match out r with
            | Returned x => Returned (f x)
            | Exited c => Exited c
            | Crashed => Crashed
            | Pending => Pending
            | OutOfFuel => OutOfFuel
            end |}.

(** [all phi t]: every item of every run of [t] satisfies [phi]. *)
Definition all (phi : item -> Prop) {R} (t : itree sysE R) : Prop :=
  sat t (Forall phi) (fun _ => Forall phi).

(** ** The traces of the two retry loops *)

(** One failed attempt: the call with its negative answer, the warning and
    the sleep. *)
Definition failed_socket sl (host : string) (port : Z) (r : Z) : trace :=
  Did (Socket AF_INET SOCK_STREAM 0) r ::
  warning_line sl
    "Failed to create socket for %s:%d, retrying: %s\n"
    [ArgS host; ArgD port; ArgStrerror] ++
  [Did (Sleep RETRY_SLEEP) tt].

Definition failed_connect sl (host : string) (port : Z) (fd : Z)
    (addr : sockaddr_in) (r : Z) : trace :=
  Did (Connect fd addr) r ::
  warning_line sl
    "Failed to connect to %s:%d, retrying: %s\n"
    [ArgS host; ArgD port; ArgStrerror] ++
  [Did (Sleep RETRY_SLEEP) tt].

(** The warning about a host name with several addresses; nothing when
    there is one address only. *)
Definition several_addresses sl (a0 : in_addr) (others : list in_addr)
  : trace :=
  match others with
  | _ :: _ =>
      warning_line sl
        "Hostname with more than one IPv4 address, using the first one detected: %s\n"
        [ArgAddr a0]
  | [] => []
  end.

(** Fuel of [k] failed attempts of a retry loop: the call, the warning, the
    sleep and the step back to the head of the loop. *)
Definition retry_cost (sl : bool) (k : nat) : nat :=
  (k * (3 + xlog_cost sl))%nat.

Definition several_cost (sl : bool) (others : list in_addr) : nat :=
  match others with
  | _ :: _ => xlog_cost sl
  | [] => O
  end.

Definition the_timeout : timeval :=
  {| tv_sec := SOCKET_TIMEOUT; tv_usec := 0 |}.

Definition the_address (port : Z) (a0 : in_addr) : sockaddr_in :=
  {| sin_family := AF_INET; sin_port := htons port; sin_addr := a0 |}.

(** The script of a call of [socket_connect] that succeeds: [socket] fails
    with [sfails], then gives [fd]; both timeouts are accepted; the resolver
    gives [a0 :: others]; [connect] fails with [cfails], then gives [rc]. *)
Definition connecting (sfails : list Z) (fd r1 r2 : Z) (a0 : in_addr)
    (others : list in_addr) (cfails : list Z) (rc : Z) (s : script) : script :=
  map AInt sfails ++
  AInt fd :: AInt r1 :: AInt r2 ::
  AHost (Some {| h_addr_list := Some (a0 :: others) |}) ::
  map AInt cfails ++ AInt rc :: s.

(** ... and its trace. *)
Definition connecting_trace sl (host : string) (port : Z) (sfails : list Z)
    (fd r1 r2 : Z) (a0 : in_addr) (others : list in_addr) (cfails : list Z)
    (rc : Z) : trace :=
  flat_map (failed_socket sl host port) sfails ++
  [Did (Socket AF_INET SOCK_STREAM 0) fd;
   Did (Setsockopt fd SOL_SOCKET SO_RCVTIMEO the_timeout) r1;
   Did (Setsockopt fd SOL_SOCKET SO_SNDTIMEO the_timeout) r2;
   Did (Gethostbyname2 host AF_INET)
     (Some {| h_addr_list := Some (a0 :: others) |})] ++
  several_addresses sl a0 others ++
  flat_map (failed_connect sl host port fd (the_address port a0)) cfails ++
  [Did (Connect fd (the_address port a0)) rc].

Definition connecting_cost sl (sfails : list Z) (others : list in_addr)
    (cfails : list Z) : nat :=
  (retry_cost sl (List.length sfails) + 4 + several_cost sl others +
   retry_cost sl (List.length cfails) + 1)%nat.

(** ** What a returned descriptor stands for *)

Definition ends_with (tr : trace) (it : item) : Prop :=
  exists pre, tr = pre ++ [it].

(** [established port fd tr]: in the trace [tr], [fd] is a descriptor that
    [socket] returned, on which both timeouts were set with success, and the
    last call of the trace is a [connect] of [fd] to the port that
    succeeded. *)
Definition established (port : Z) (fd : Z) (tr : trace) : Prop :=
  0 <= fd /\
  In (Did (Socket AF_INET SOCK_STREAM 0) fd) tr /\
  (exists r1, 0 <= r1 /\
     In (Did (Setsockopt fd SOL_SOCKET SO_RCVTIMEO the_timeout) r1) tr) /\
  (exists r2, 0 <= r2 /\
     In (Did (Setsockopt fd SOL_SOCKET SO_SNDTIMEO the_timeout) r2) tr) /\
  (exists a0 rc, 0 <= rc /\
     ends_with tr (Did (Connect fd (the_address port a0)) rc)).

(** The answers of the [connect] calls of a trace, in order. *)
Fixpoint attempts (tr : trace) : list Z :=
  match tr with
  | [] => []
  | it :: tr' =>
      match it with
      | Did e r =>
          match e in sysE T return T -> list Z with
          | Connect _ _ => fun r => r :: attempts tr'
          | _ => fun _ => attempts tr'
          end r
      | Halt _ => attempts tr'
      end
  end.

(** ** How the process ends *)

Definition no_halt (it : item) : Prop :=
  match it with
  | Halt _ => False
  | Did _ _ => True
  end.

(** The status of an [exit], when the item is one. *)
Definition exit_status (it : item) : option Z :=
  match it with
  | Halt e =>
      match e with
      | Exit status => Some status
      | _ => None
      end
  | Did _ _ => None
  end.

(** The calls after which [socket_connect] gives up: a timeout that could
    not be set, and a host name for which the resolver gave no IPv4
    address (no entry at all, no address list, or an empty one). *)
Definition unresolved (h : option hostent) : bool :=
  match h with
  | Some {| h_addr_list := Some (_ :: _) |} => false
  | _ => true
  end.

Definition no_address (h : option hostent) : Prop := unresolved h = true.

Definition fatal_cause (it : item) : Prop :=
  match it with
  | Did e r =>
      match e in sysE T return T -> Prop with
      | Setsockopt _ _ _ _ => fun r => r < 0
      | Gethostbyname2 _ _ => fun h => no_address h
      | _ => fun _ => False
      end r
  | Halt _ => False
  end.

(** An item that neither stops the process nor is a fatal cause. *)
Definition harmless (it : item) : Prop := no_halt it /\ ~ fatal_cause it.

(** The trace of a process that [socket_connect] terminated: up to the
    fatal cause nothing fatal happened, and what follows it is one log
    line at error level and [exit(1)], with nothing between or after. *)
Definition dies_of (sl : bool) (tr : trace) : Prop :=
  exists pre cause format args,
    tr = pre ++ cause :: error_line sl format args ++ [Halt (Exit 1)] /\
    Forall harmless pre /\ fatal_cause cause.

(** The trace of a run that is harmless so far, or is dying of a fatal
    cause. *)
Definition halts_justified (sl : bool) (tr : trace) : Prop :=
  Forall harmless tr \/
  exists pre cause tl format args,
    tr = pre ++ cause :: tl /\
    Forall harmless pre /\ fatal_cause cause /\
    is_prefix tl (error_line sl format args ++ [Halt (Exit 1)]).

(** The error line for a host name that gave no address. *)
Definition resolve_error (host : string) (h : option hostent)
  : string * list fmt_arg :=
  match h with
  | None => ("Failed to parse hostname for %s: %s\n"%string,
             [ArgS host; ArgHstrerror])
  | Some _ => ("Can't find any IPv4 address for %s\n"%string, [ArgS host])
  end.

(** ** The steps of [socket_connect] and their order *)

Inductive step := Resolve | CreateSocket | ReadTimeout | WriteTimeout | TcpConnect.










(** A script on which [socket_connect] goes through all its steps, each at
    the first attempt but the first and the last. *)
Definition ok_script : script :=
  [AInt (-1); AInt 3; AInt 0; AInt 0;
   AHost (Some {| h_addr_list := Some [167772161; 167772162] |});
   AInt (-1); AInt 0].

(** ** Reading the address used and the warnings given *)

(** The addresses of the [connect] calls of a trace, in order. *)
Fixpoint connect_addresses (tr : trace) : list in_addr :=
  match tr with
  | [] => []
  | Did (Connect _ addr) _ :: tr' => sin_addr addr :: connect_addresses tr'
  | _ :: tr' => connect_addresses tr'
  end.

Definition several_format : string :=
  "Hostname with more than one IPv4 address, using the first one detected: %s\n".

(** The item is the warning about a host name with several addresses, at
    warning level on the system log or as a line of standard error. *)
Definition is_several_warning (it : item) : bool :=
  match it with
  | Did (Vsyslog priority format _) _ =>
      (priority =? LOG_WARNING) && String.eqb format several_format
  | Did (Vfprintf stderr format _) _ => String.eqb format several_format
  | _ => false
  end.

Definition several_warnings (tr : trace) : nat :=
  List.length (filter is_several_warning tr).

(** ** What the relay hands on *)






(** ** Reading port values *)

(** A valid decimal number: one digit at least, and digits only. *)
Fixpoint all_digits (s : string) : bool :=
  match s with
  | String c s' =>
      match digit c with
      | Some _ => all_digits s'
      | None => false
      end
  | EmptyString => true
  end.

Definition valid_decimal (s : string) : bool :=
  match s with
  | EmptyString => false
  | String _ _ => all_digits s
  end.

(** The string does not start with a decimal digit. *)
Definition no_leading_digit (s : string) : bool :=
  match s with
  | String c _ =>
      match digit c with
      | Some _ => false
      | None => true
      end
  | EmptyString => true
  end.

(** What is left of a value once [strtoul] has skipped the white space and
    the sign. *)
Definition unsigned_part (s : string) : string :=
  match skip_spaces s with
  | String c s' =>
      if Ascii.eqb c "-" then s'
      else if Ascii.eqb c "+" then s'
      else String c s'
  | EmptyString => EmptyString
  end.

(** The ports of the [connect] calls of a trace, in order. *)
Fixpoint connect_ports (tr : trace) : list Z :=
  match tr with
  | [] => []
  | Did (Connect _ addr) _ :: tr' => sin_port addr :: connect_ports tr'
  | _ :: tr' => connect_ports tr'
  end.

(** A script on which both endpoints connect at the first attempt. *)
Definition both_connect : script :=
  [AInt 3; AInt 0; AInt 0;
   AHost (Some {| h_addr_list := Some [2130706433] |}); AInt 0;
   AInt 4; AInt 0; AInt 0;
   AHost (Some {| h_addr_list := Some [2130706433] |}); AInt 0].


(** ** How [main] returns *)

(** [leaves rv tr]: the trace and the status of a [main] that returns:
    status 0 after the help or the version on standard output, status 2
    after the usage and one line at error level; nothing else in the
    trace. *)
Definition leaves (rv : Z) (tr : trace) : Prop :=
  (rv = 0 /\
   (tr = [Did (Fprintf stdout help_text []) tt] \/
    tr = [Did (Fprintf stdout "%s\n" [ArgS PACKAGE_STRING]) tt])) \/
  (rv = 2 /\
   exists sl format args,
     tr = Did (Fprintf stdout usage_text []) tt ::
          error_line sl format args).

(** ** The calls each function makes *)

(** The items a call of [socket_connect] can leave in a trace. *)
Inductive connector_item (sl : bool) (host : string) (port : Z)
  : item -> Prop :=
| ci_socket r :
    connector_item sl host port (Did (Socket AF_INET SOCK_STREAM 0) r)
| ci_setsockopt fd optname r :
    connector_item sl host port
      (Did (Setsockopt fd SOL_SOCKET optname the_timeout) r)
| ci_resolve r :
    connector_item sl host port (Did (Gethostbyname2 host AF_INET) r)
| ci_connect fd a r :
    connector_item sl host port (Did (Connect fd (the_address port a)) r)
| ci_sleep :
    connector_item sl host port (Did (Sleep RETRY_SLEEP) tt)
| ci_log priority format args it :
    priority = LOG_WARNING \/ priority = LOG_ERR ->
    In it (log_items sl priority format args) ->
    connector_item sl host port it
| ci_exit :
    connector_item sl host port (Halt (Exit 1)).

(** The items a call of [main_loop] can leave in a trace. *)
Inductive relay_item (sl : bool) (src_host : string) (src_port : Z)
    (dst_host : string) (dst_port : Z) : item -> Prop :=
| ri_src it :
    connector_item sl src_host src_port it ->
    relay_item sl src_host src_port dst_host dst_port it
| ri_dst it :
    connector_item sl dst_host dst_port it ->
    relay_item sl src_host src_port dst_host dst_port it
| ri_read fd r :
    relay_item sl src_host src_port dst_host dst_port
      (Did (Read fd BUFFER_SIZE) r)
| ri_write fd bytes r :
    relay_item sl src_host src_port dst_host dst_port (Did (Write fd bytes) r)
| ri_close fd :
    relay_item sl src_host src_port dst_host dst_port (Did (Close fd) tt).

(** ** Where the messages go *)

(** [sunk sl it]: the item writes no message, or writes it where [sl] says:
    to the system log when [sl] is set, to standard error when it is not.
    Standard output is for the texts of [main] only. *)
Definition sunk (sl : bool) (it : item) : Prop :=
  match it with
  | Did e _ | Halt e =>
      match e with
      | Vsyslog _ _ _ => sl = true
      | Fprintf stderr _ _ | Vfprintf stderr _ _ => sl = false
      | _ => True
      end
  end.

(** The item prints nothing on standard output. *)
Definition off_stdout (it : item) : Prop :=
  match it with
  | Did e _ | Halt e =>
      match e with
      | Fprintf stdout _ _ | Vfprintf stdout _ _ => False
      | _ => True
      end
  end.

(** The level of a message is warning or error: the priority of a line of
    the system log, and the word in front of a line of standard error. *)
Definition level_ok (it : item) : Prop :=
  match it with
  | Did e _ | Halt e =>
      match e with
      | Vsyslog priority _ _ => priority = LOG_WARNING \/ priority = LOG_ERR
      | Fprintf stderr format args =>
          format = "%s: "%string /\
          (args = [ArgS "warning"] \/ args = [ArgS "error"])
      | _ => True
      end
  end.

(** The argument is not the flag [-l]. *)
Definition not_l_flag (arg : string) : Prop :=
  starts_with_dash arg = true -> second_char arg <> "l"%char.

(** [one_sink args sl tr]: the messages of the trace go to one place, which
    is the system log when [sl] is set, and the place [sl] says when no
    argument of [args] is the flag [-l]; and each has level warning or
    error. *)
Definition one_sink (args : list string) (sl : bool) (tr : trace) : Prop :=
  exists sl',
    (sl = true -> sl' = true) /\
    (Forall not_l_flag args -> sl' = sl) /\
    Forall (fun it => sunk sl' it /\ level_ok it) tr.

(** ** Traces read by an automaton *)

(** A discipline on the calls of a run is given as an automaton: [step]
    takes the state and an item to the next state, or refuses the item.
    [feed step st tr] runs the automaton over a trace. *)
Fixpoint feed {St} (step : St -> item -> option St) (st : St) (tr : trace)
  : option St :=
  match tr with
  | [] => Some st
  | it :: tr' =>
      match step st it with
      | Some st' => feed step st' tr'
      | None => None
      end
  end.

(** [tracks step t st0 inv post]: the automaton, started in [st0], accepts
    the trace of every run of [t]; the state it reaches satisfies [inv]
    wherever the run stops, and [post x] when [t] returned [x]. *)
Definition tracks {St} (step : St -> item -> option St) {R}
    (t : itree sysE R) (st0 : St) (inv : St -> Prop)
    (post : R -> St -> Prop) : Prop :=
  sat t (fun tr => exists st, feed step st0 tr = Some st /\ inv st)
        (fun x tr => exists st, feed step st0 tr = Some st /\ post x st).

(** ** The descriptors a run holds *)

Definition holds (fd : Z) (open : list Z) : bool := existsb (Z.eqb fd) open.

Fixpoint release (fd : Z) (open : list Z) : list Z :=
  match open with
  | [] => []
  | x :: open' => if fd =? x then open' else x :: release fd open'
  end.

(** The automaton of the descriptors: the state is the list of the
    descriptors [socket] gave that were not closed since.  A call on a
    descriptor that is not in the list is refused, and so is a [socket]
    that succeeds while two descriptors are held. *)
Definition fd_step (open : list Z) (it : item) : option (list Z) :=
  match it with
  | Did e r =>
      match e in sysE T return T -> option (list Z) with
      | Socket _ _ _ =>
          fun r =>
            if r <? 0 then Some open
            else if (List.length open <? 2)%nat then Some (r :: open)
            else None
      | Setsockopt fd _ _ _ | Connect fd _ | Read fd _ | Write fd _ =>
          fun _ => if holds fd open then Some open else None
      | Close fd =>
          fun _ => if holds fd open then Some (release fd open) else None
      | _ => fun _ => Some open
      end r
  | Halt _ => Some open
  end.

(** ** The pace of the attempts *)

(** The automaton of the retries: the state tells whether a pause is owed,
    which is the case from an attempt ([socket] or [connect]) that failed
    to the [sleep] of [RETRY_SLEEP] seconds that follows it.  While a pause
    is owed the run does nothing but write its warning; it does not sleep
    when none is owed. *)
Definition pace_step (owed : bool) (it : item) : option bool :=
  match it with
  | Did e r =>
      match e in sysE T return T -> option bool with
      | Socket _ _ _ | Connect _ _ =>
          fun r => if owed then None else Some (r <? 0)
      | Sleep seconds =>
          fun _ => if owed && (seconds =? RETRY_SLEEP) then Some false else None
      | Vsyslog _ _ _ | Fprintf _ _ _ | Vfprintf _ _ _ => fun _ => Some owed
      | _ => fun _ => if owed then None else Some owed
      end r
  | Halt _ => if owed then None else Some owed
  end.

(** The descriptors held at the head of the relay loop are the two of the
    relay. *)
Definition holds_both (st : relay) (open : list Z) : Prop :=
  open = [src st; dst st] \/ open = [dst st; src st].

Definition at_most_two (open : list Z) : Prop := (List.length open <= 2)%nat.

(** ** How a run of [main] can stop *)

(** A port flag with no value attached: [-s] or [-d] and nothing more. *)
Definition bare_port_flag (arg : string) : bool :=
  starts_with_dash arg &&
  (Ascii.eqb (second_char arg) "s" || Ascii.eqb (second_char arg) "d") &&
  match after_flag arg with
  | EmptyString => true
  | String _ _ => false
  end.

(** The traces of the scan of the arguments [args]: nothing stops the
    process but a fatal cause in [socket_connect], or else the trace is the
    call of [strtoul] on the null pointer and the last argument is a port
    flag with no value. *)
Definition ends_of (args : list string) (tr : trace) : Prop :=
  (exists sl, halts_justified sl tr) \/
  (bare_port_flag (last args EmptyString) = true /\
   tr = [Halt (Undefined "strtoul(NULL, NULL, 10)")]).

(** ** Signals *)

(** An item that does not change the disposition of a signal. *)
Definition no_signal (it : item) : Prop :=
  match it with
  | Did (Signal _ _) _ => False
  | _ => True
  end.

(** ** Options and host names in any order *)

(** The flags the scan goes past: [-l], and [-s] or [-d] with its value,
    attached or in the next argument. *)
Inductive option_group : list string -> Prop :=
| og_syslog arg :
    starts_with_dash arg = true -> second_char arg = "l"%char ->
    option_group [arg]
| og_attached arg :
    starts_with_dash arg = true ->
    second_char arg = "s"%char \/ second_char arg = "d"%char ->
    after_flag arg <> EmptyString ->
    option_group [arg]
| og_next arg value :
    starts_with_dash arg = true ->
    second_char arg = "s"%char \/ second_char arg = "d"%char ->
    after_flag arg = EmptyString ->
    option_group [arg; value].

(** ** What the destination takes *)









(** * Properties *)

(** ** How [exec] runs through the constructors of a program *)

Lemma exec_S R n (t : itree sysE R) s :
  exec (S n) t s =
  match observe t with
  | RetF r => {| events := []; rest := s; spare := S n; out := Returned r |}
  | TauF t' => exec n t' s
  | VisF e k =>
      match answer_to e s with
      | Reply r s' => before (Did e r) (exec n (k r) s')
      | NoAnswer => {| events := []; rest := s; spare := n; out := Pending |}
      | Stops o => {| events := [Halt e]; rest := s; spare := n; out := cast o |}
      end
  end.
Proof. reflexivity. Qed.

Lemma exec_observe R fuel (t t' : itree sysE R) s :
  observe t = observe t' -> exec fuel t s = exec fuel t' s.
Proof.
  intros H. destruct fuel as [|n]; [reflexivity|].
  rewrite !exec_S, H. reflexivity.
Qed.

Lemma prefix_nil R (r : result R) : prefix [] r = r.
Proof. destruct r; reflexivity. Qed.

Lemma cast_not_returned R (o : outcome void) (x : R) : cast o <> Returned x.
Proof. destruct o as [[]| | | |]; discriminate. Qed.

Lemma exec_bind A B fuel (t : itree sysE A) (k : A -> itree sysE B) s :
  exec fuel (ITree.bind t k) s =
  andthen (exec fuel t s) (fun x f s' => exec f (k x) s').
Proof.
  revert t s. induction fuel as [|n IH]; intros t s; [reflexivity|].
  rewrite (exec_S n (ITree.bind t k)), (exec_S n t).
  change (observe (ITree.bind t k)) with
    (observe (match observe t with
              | RetF r => k r
              | TauF t0 => Tau (ITree.bind t0 k)
              | VisF e ke => Vis e (fun x => ITree.bind (ke x) k)
              end)).
  destruct (observe t) as [r|t0|X e ke].
  - unfold andthen; cbn [out events spare rest]. rewrite prefix_nil.
    rewrite exec_S. reflexivity.
  - cbn [observe _observe]. apply IH.
  - cbn [observe _observe].
    destruct (answer_to e s) as [r s'| |o].
    + rewrite IH. unfold andthen, before, prefix; cbn [out events spare rest].
      destruct (out (exec n (ke r) s')); reflexivity.
    + reflexivity.
    + unfold andthen; cbn [out events spare rest].
      destruct o as [[]| | | |]; reflexivity.
Qed.

Lemma exec_spare_le R fuel (t : itree sysE R) s :
  (spare (exec fuel t s) <= fuel)%nat.
Proof.
  revert t s. induction fuel as [|n IH]; intros t s; [apply Nat.le_refl|].
  rewrite exec_S. destruct (observe t) as [r|t0|X e k].
  - apply Nat.le_refl.
  - apply Nat.le_le_succ_r, IH.
  - destruct (answer_to e s); cbn [spare before];
      try apply Nat.le_le_succ_r; try apply IH; apply Nat.le_refl.
Qed.

Lemma returned_spare_pos R fuel (t : itree sysE R) s x :
  out (exec fuel t s) = Returned x -> exists m, spare (exec fuel t s) = S m.
Proof.
  revert t s. induction fuel as [|n IH]; intros t s; [discriminate|].
  rewrite exec_S. destruct (observe t) as [r|t0|X e k].
  - intros _. exists n. reflexivity.
  - apply IH.
  - destruct (answer_to e s) as [r s'| |o]; cbn [spare out before].
    + apply IH.
    + discriminate.
    + intros H. exfalso. exact (cast_not_returned _ H).
Qed.

Lemma exec_ret R fuel (x : R) s :
  exec (S fuel) (Ret x) s =
  {| events := []; rest := s; spare := S fuel; out := Returned x |}.
Proof. reflexivity. Qed.

Lemma exec_tau R fuel (t : itree sysE R) s :
  exec (S fuel) (Tau t) s = exec fuel t s.
Proof. reflexivity. Qed.

Lemma exec_iter I R fuel (body : I -> itree sysE (I + R)) i s :
  exec fuel (ITree.iter body i) s =
  exec fuel (lr <- body i ;;
             match lr with
             | inl l => Tau (ITree.iter body l)
             | inr r => Ret r
             end) s.
Proof. apply exec_observe. reflexivity. Qed.


Lemma halts_stops T (e : sysE T) s o : answer_to e s = Stops o -> halts e = true.
Proof.
  destruct e; cbn; try discriminate; try reflexivity;
    destruct s as [|[] ?]; discriminate.
Qed.

(** ** Rules of the specification logic *)

Lemma sat_weaken R (t : itree sysE R) (P P' : trace -> Prop)
    (Q Q' : R -> trace -> Prop) :
  sat t P Q ->
  (forall tr, P tr -> P' tr) ->
  (forall x tr, Q x tr -> Q' x tr) ->
  sat t P' Q'.
Proof.
  intros H HP HQ fuel s. destruct (H fuel s) as [H1 H2]. split; auto.
Qed.

Lemma sat_ret R (x : R) (P : trace -> Prop) (Q : R -> trace -> Prop) :
  P [] -> Q x [] -> sat (Ret x) P Q.
Proof.
  intros HP HQ [|n] s; cbn; split; auto; try discriminate.
  intros y [= <-]. exact HQ.
Qed.

Lemma sat_call T (e : sysE T) (P : trace -> Prop) (Q : T -> trace -> Prop) :
  P [] ->
  (forall r, P [Did e r]) ->
  (halts e = true -> P [Halt e]) ->
  (forall r, Q r [Did e r]) ->
  sat (call e) P Q.
Proof.
  intros H0 H1 Hh HQ [|n] s; [cbn; split; [auto|discriminate]|].
  unfold call. rewrite exec_S. cbn [observe _observe ITree.trigger].
  destruct (answer_to e s) as [r s'| |o] eqn:Ha.
  - destruct n as [|n]; cbn; split; auto; try discriminate.
    intros x [= <-]. apply HQ.
  - cbn. split; [auto|discriminate].
  - cbn. split; [eauto using halts_stops|].
    intros x H. exfalso. exact (cast_not_returned _ H).
Qed.

Lemma sat_bind A B (t : itree sysE A) (k : A -> itree sysE B)
    (P1 : trace -> Prop) (Q1 : A -> trace -> Prop)
    (P : trace -> Prop) (Q : B -> trace -> Prop) :
  sat t P1 Q1 ->
  (forall tr, P1 tr -> P tr) ->
  (forall x tr1, Q1 x tr1 ->
     sat (k x) (fun tr2 => P (tr1 ++ tr2)) (fun y tr2 => Q y (tr1 ++ tr2))) ->
  sat (ITree.bind t k) P Q.
Proof.
  intros Ht HP Hk fuel s. rewrite exec_bind.
  destruct (Ht fuel s) as [H1 H2]. unfold andthen.
  destruct (out (exec fuel t s)) as [x| | | |] eqn:Ho;
    cbn [events out prefix]; try (split; [auto|discriminate]).
  apply (Hk x _ (H2 x eq_refl)).
Qed.

Lemma sat_exit R (status : Z) (P : trace -> Prop) (Q : R -> trace -> Prop) :
  P [] -> P [Halt (Exit status)] -> sat (exit status) P Q.
Proof.
  intros H0 H1 [|n] s; [cbn; split; [auto|discriminate]|].
  cbn. split; [auto|discriminate].
Qed.

Lemma sat_undefined R what (P : trace -> Prop) (Q : R -> trace -> Prop) :
  P [] -> P [Halt (Undefined what)] -> sat (undefined what) P Q.
Proof.
  intros H0 H1 [|n] s; [cbn; split; [auto|discriminate]|].
  cbn. split; [auto|discriminate].
Qed.

Lemma sat_iter I R (body : I -> itree sysE (I + R)) (i0 : I)
    (Inv : I -> trace -> Prop) (P : trace -> Prop) (Q : R -> trace -> Prop) :
  Inv i0 [] ->
  (forall i tr, Inv i tr ->
     sat (body i) (fun tr2 => P (tr ++ tr2))
       (fun lr tr2 =>
          match lr with
          | inl i' => Inv i' (tr ++ tr2)
          | inr x => Q x (tr ++ tr2)
          end)) ->
  sat (ITree.iter body i0) P Q.
Proof.
  intros H0 Hbody.
  assert (Hnil : forall i tr, Inv i tr -> P tr).
  { intros i tr Hi. destruct (Hbody i tr Hi O []) as [Hp _].
    cbn in Hp. rewrite app_nil_r in Hp. exact Hp. }
  assert (G : forall fuel i tr s, Inv i tr ->
    P (tr ++ events (exec fuel (ITree.iter body i) s)) /\
    forall x, out (exec fuel (ITree.iter body i) s) = Returned x ->
              Q x (tr ++ events (exec fuel (ITree.iter body i) s))).
  { induction fuel as [fuel IH] using lt_wf_ind. intros i tr s Hi.
    rewrite exec_iter, exec_bind.
    destruct (Hbody i tr Hi fuel s) as [H1 H2]. unfold andthen.
    destruct (out (exec fuel (body i) s)) as [[l|x]| | | |] eqn:Ho;
      cbn [events out prefix]; try (split; [auto|discriminate]).
    - destruct (returned_spare_pos _ _ _ Ho) as [m Hm]. rewrite Hm.
      rewrite exec_tau, app_assoc. apply IH.
      + pose proof (exec_spare_le fuel (body i) s). lia.
      + exact (H2 _ eq_refl).
    - destruct (returned_spare_pos _ _ _ Ho) as [m Hm]. rewrite Hm.
      rewrite exec_ret. cbn [events out]. rewrite app_nil_r.
      split; [exact H1|]. intros y [= <-]. exact (H2 _ eq_refl). }
  intros fuel s. apply (G fuel i0 [] s H0).
Qed.

(** ** Running calls and [xlog] *)

Lemma exec_call_bind T R n (e : sysE T) (k : T -> itree sysE R) s :
  exec (S n) (x <- call e ;; k x) s =
  match answer_to e s with
  | Reply r s' => before (Did e r) (exec n (k r) s')
  | NoAnswer => {| events := []; rest := s; spare := n; out := Pending |}
  | Stops o => {| events := [Halt e]; rest := s; spare := n; out := cast o |}
  end.
Proof.
  rewrite exec_S. cbn [observe _observe call ITree.trigger ITree.bind ITree.subst].
  destruct (answer_to e s) as [r s'| |o]; try reflexivity.
  f_equal. apply exec_observe. reflexivity.
Qed.

Lemma exec_map_out A B fuel (t : itree sysE A) (f : A -> B) s :
  exec fuel (x <- t ;; Ret (f x)) s = map_out f (exec fuel t s).
Proof.
  rewrite exec_bind. unfold andthen, map_out.
  destruct (out (exec fuel t s)) as [x| | | |] eqn:Ho; try reflexivity.
  destruct (returned_spare_pos _ _ _ Ho) as [m ->].
  rewrite exec_ret. unfold prefix; cbn [events rest spare out].
  rewrite app_nil_r. reflexivity.
Qed.

(** The lines at warning and at error level are the lines of those
    priorities. *)
Lemma warning_line_items sl format args :
  warning_line sl format args = log_items sl LOG_WARNING format args.
Proof. reflexivity. Qed.

Lemma error_line_items sl format args :
  error_line sl format args = log_items sl LOG_ERR format args.
Proof. reflexivity. Qed.

Lemma exec_xlog sl priority format args n s :
  exec (xlog_cost sl + S n) (xlog sl priority format args) s =
  {| events := log_items sl priority format args; rest := s;
     spare := S n; out := Returned tt |}.
Proof. destruct sl; reflexivity. Qed.

Lemma exec_xlog_bind R sl priority format args n (k : itree sysE R) s :
  exec (xlog_cost sl + n) (xlog sl priority format args ;; k) s =
  prefix (log_items sl priority format args) (exec n k s).
Proof.
  destruct n as [|n].
  - destruct sl; reflexivity.
  - rewrite exec_bind, exec_xlog. reflexivity.
Qed.

Lemma sat_xlog sl priority format args (P : trace -> Prop)
    (Q : unit -> trace -> Prop) :
  (forall tr, is_prefix tr (log_items sl priority format args) -> P tr) ->
  Q tt (log_items sl priority format args) ->
  sat (xlog sl priority format args) P Q.
Proof.
  intros HP HQ fuel s.
  destruct sl; destruct fuel as [|[|[|n]]]; cbn; (split; [apply HP|]);
    try discriminate; try (intros [] _; exact HQ);
    unfold is_prefix, log_items; cbn; eauto.
Qed.

(** ** Derived rules: one call after the other *)

Lemma sat_observe R (t t' : itree sysE R) P Q :
  observe t = observe t' -> sat t P Q -> sat t' P Q.
Proof.
  intros E H fuel s. rewrite <- (exec_observe fuel t t' s E). apply H.
Qed.

Lemma sat_ret_bind A B (x : A) (k : A -> itree sysE B) P Q :
  sat (k x) P Q -> sat (y <- Ret x ;; k y) P Q.
Proof. apply sat_observe. reflexivity. Qed.

Lemma sat_call_bind T R (e : sysE T) (k : T -> itree sysE R)
    (P : trace -> Prop) (Q : R -> trace -> Prop) :
  P [] ->
  (halts e = true -> P [Halt e]) ->
  (forall r, sat (k r) (fun tr => P (Did e r :: tr))
               (fun y tr => Q y (Did e r :: tr))) ->
  sat (x <- call e ;; k x) P Q.
Proof.
  intros H0 Hh Hk.
  apply sat_bind with
    (P1 := fun tr => tr = [] \/ (halts e = true /\ tr = [Halt e]) \/
                     exists r, tr = [Did e r])
    (Q1 := fun r tr => tr = [Did e r]).
  - apply sat_call; eauto.
  - intros tr [->|[[Hx ->]|[r ->]]]; auto.
    destruct (Hk r O []) as [Hp _]. exact Hp.
  - intros r tr1 ->. apply Hk.
Qed.

Lemma sat_noreturn_bind A B (t : itree sysE A) (k : A -> itree sysE B) P Q :
  sat t P (fun _ _ => False) -> sat (ITree.bind t k) P Q.
Proof.
  intros H. apply sat_bind with (P1 := P) (Q1 := fun _ _ => False); auto.
  intros x tr1 [].
Qed.

Lemma sat_xlog_bind R sl priority format args (k : itree sysE R) P Q :
  (forall tr, is_prefix tr (log_items sl priority format args) -> P tr) ->
  sat k (fun tr => P (log_items sl priority format args ++ tr))
        (fun y tr => Q y (log_items sl priority format args ++ tr)) ->
  sat (xlog sl priority format args ;; k) P Q.
Proof.
  intros HP Hk.
  apply sat_bind with
    (P1 := fun tr => is_prefix tr (log_items sl priority format args))
    (Q1 := fun _ tr => tr = log_items sl priority format args); auto.
  - apply sat_xlog; auto.
  - intros [] tr1 ->. exact Hk.
Qed.

(** [xlog] at error level followed by [exit]: the run stops somewhere in
    the log line, or ends with the exit. *)
Lemma sat_fatal R sl format args status (P : trace -> Prop)
    (Q : R -> trace -> Prop) :
  (forall tr, is_prefix tr (error_line sl format args) -> P tr) ->
  P (error_line sl format args ++ [Halt (Exit status)]) ->
  sat (xlog sl LOG_ERR format args ;; exit status) P Q.
Proof.
  intros HP HE. apply sat_xlog_bind; [exact HP|].
  apply sat_exit; [|exact HE].
  rewrite app_nil_r. apply HP. exists []. symmetry. apply app_nil_r.
Qed.

Lemma is_prefix_nil tr : is_prefix [] tr.
Proof. exists tr. reflexivity. Qed.

Lemma is_prefix_refl tr : is_prefix tr tr.
Proof. exists []. symmetry. apply app_nil_r. Qed.

Lemma is_prefix_cons it tr full :
  is_prefix tr (it :: full) ->
  tr = [] \/ exists tr', tr = it :: tr' /\ is_prefix tr' full.
Proof.
  intros [tl E]. destruct tr as [|it' tr']; [auto|right].
  injection E as <- E. exists tr'. split; [reflexivity|]. exists tl. exact E.
Qed.

Lemma is_prefix_of_nil tr : is_prefix tr [] -> tr = [].
Proof. intros [tl E]. destruct tr; [reflexivity|discriminate]. Qed.

(** ** Properties of every item of a trace *)

Section All.

Variable phi : item -> Prop.

Lemma all_ret R (x : R) : all phi (Ret x).
Proof. apply sat_ret; constructor. Qed.

Lemma all_call T (e : sysE T) :
  (forall r, phi (Did e r)) ->
  (halts e = true -> phi (Halt e)) ->
  all phi (call e).
Proof. intros H1 H2. apply sat_call; auto. Qed.

Lemma all_bind A B (t : itree sysE A) (k : A -> itree sysE B) :
  all phi t -> (forall x, all phi (k x)) -> all phi (ITree.bind t k).
Proof.
  intros Ht Hk. apply sat_bind with (P1 := Forall phi) (Q1 := fun _ => Forall phi);
    auto.
  intros x tr1 H1. eapply sat_weaken; [apply (Hk x)| |];
    cbn; intros; apply Forall_app; auto.
Qed.

Lemma all_iter I R (body : I -> itree sysE (I + R)) i :
  (forall i, all phi (body i)) -> all phi (ITree.iter body i).
Proof.
  intros Hb. apply sat_iter with (Inv := fun _ => Forall phi); [constructor|].
  intros j tr Htr. eapply sat_weaken; [apply (Hb j)| |]; cbn.
  - intros; apply Forall_app; auto.
  - intros [l|x] tr2 H2; apply Forall_app; auto.
Qed.

Lemma all_exit R status : phi (Halt (Exit status)) -> all phi (@exit R status).
Proof. intros H. apply sat_exit; auto. Qed.

Lemma all_xlog sl priority format args :
  Forall phi (log_items sl priority format args) ->
  all phi (xlog sl priority format args).
Proof.
  intros H. apply sat_xlog; [|exact H].
  intros tr [tl E]. rewrite E in H. apply Forall_app in H. tauto.
Qed.

Lemma all_run R (t : itree sysE R) fuel s :
  all phi t -> Forall phi (events (exec fuel t s)).
Proof. intros H. apply H. Qed.

End All.

Ltac all_steps :=
  repeat first
    [ apply all_ret
    | apply all_bind; [|intros]
    | apply all_iter; intros
    | apply all_xlog
    | apply all_exit
    | apply all_call; [intros|intros]
    | match goal with
      | |- all _ (if ?b then _ else _) => destruct b
      | |- all _ (match ?x with _ => _ end) => destruct x
      end ].

Lemma socket_connect_quiet sl host port : all quiet (socket_connect sl host port).
Proof.
  unfold socket_connect, create_socket, connect_retry.
  all_steps; try exact I; destruct sl; repeat constructor.
Qed.

(** ** Traces of runs that go through [socket_connect] only *)



Lemma quiet_writes tr : Forall quiet tr -> writes tr = [].
Proof.
  induction 1 as [|[T e r|T e] tr H _ IH]; cbn; auto.
  destruct e; cbn in *; auto; contradiction.
Qed.

Lemma quiet_closes tr : Forall quiet tr -> closes tr = [].
Proof.
  induction 1 as [|[T e r|T e] tr H _ IH]; cbn; auto.
  destruct e; cbn in *; auto; contradiction.
Qed.

Lemma quiet_reads tr : Forall quiet tr -> reads tr = [].
Proof.
  induction 1 as [|[T e r|T e] tr H _ IH]; cbn; auto.
  destruct e; cbn in *; auto; contradiction.
Qed.

Lemma map_out_events A B (f : A -> B) r : events (map_out f r) = events r.
Proof. reflexivity. Qed.

Lemma map_out_returned A B (f : A -> B) r y :
  out (map_out f r) = Returned y -> exists x, out r = Returned x /\ y = f x.
Proof.
  unfold map_out; cbn. destruct (out r); try discriminate.
  intros [= <-]. eauto.
Qed.

(** ** Runs of the retry loops *)

Lemma create_socket_run sl host port fails fd s n :
  Forall (fun r => r < 0) fails -> 0 <= fd ->
  exec (retry_cost sl (List.length fails) + S (S n))
    (create_socket sl host port) (map AInt fails ++ AInt fd :: s) =
  {| events := flat_map (failed_socket sl host port) fails ++
               [Did (Socket AF_INET SOCK_STREAM 0) fd];
     rest := s; spare := S n; out := Returned fd |}.
Proof.
  intros Hf Hfd. induction Hf as [|r fails Hr _ IH].
  - cbn [List.length retry_cost Nat.mul Nat.add map app flat_map].
    unfold create_socket. rewrite exec_iter, exec_bind, exec_call_bind.
    cbn [answer_to].
    replace (fd <? 0) with false by (symmetry; apply Z.ltb_ge; exact Hfd).
    rewrite exec_ret. unfold andthen; cbn [before out events spare rest].
    rewrite exec_ret. reflexivity.
  - cbn [List.length map app flat_map].
    replace (retry_cost sl (S (List.length fails)) + S (S n))%nat
      with (S (xlog_cost sl +
               S (S (retry_cost sl (List.length fails) + S (S n)))))
      by (unfold retry_cost; lia).
    unfold create_socket. rewrite exec_iter, exec_bind, exec_call_bind.
    cbn [answer_to].
    replace (r <? 0) with true by (symmetry; apply Z.ltb_lt; exact Hr).
    rewrite exec_xlog_bind, exec_call_bind. cbn [answer_to].
    rewrite exec_ret. unfold andthen; cbn [before prefix out events spare rest].
    rewrite exec_tau. fold (create_socket sl host port). rewrite IH.
    unfold prefix, failed_socket; cbn [events rest spare out].
    rewrite <- !app_assoc. reflexivity.
Qed.

Lemma connect_retry_run sl host port fd addr fails rc s n :
  Forall (fun r => r < 0) fails -> 0 <= rc ->
  exec (retry_cost sl (List.length fails) + S (S n))
    (connect_retry sl host port fd addr) (map AInt fails ++ AInt rc :: s) =
  {| events := flat_map (failed_connect sl host port fd addr) fails ++
               [Did (Connect fd addr) rc];
     rest := s; spare := S n; out := Returned tt |}.
Proof.
  intros Hf Hrc. induction Hf as [|r fails Hr _ IH].
  - cbn [List.length retry_cost Nat.mul Nat.add map app flat_map].
    unfold connect_retry. rewrite exec_iter, exec_bind, exec_call_bind.
    cbn [answer_to].
    replace (rc <? 0) with false by (symmetry; apply Z.ltb_ge; exact Hrc).
    rewrite exec_ret. unfold andthen; cbn [before out events spare rest].
    rewrite exec_ret. reflexivity.
  - cbn [List.length map app flat_map].
    replace (retry_cost sl (S (List.length fails)) + S (S n))%nat
      with (S (xlog_cost sl +
               S (S (retry_cost sl (List.length fails) + S (S n)))))
      by (unfold retry_cost; lia).
    unfold connect_retry. rewrite exec_iter, exec_bind, exec_call_bind.
    cbn [answer_to].
    replace (r <? 0) with true by (symmetry; apply Z.ltb_lt; exact Hr).
    rewrite exec_xlog_bind, exec_call_bind. cbn [answer_to].
    rewrite exec_ret. unfold andthen; cbn [before prefix out events spare rest].
    rewrite exec_tau. fold (connect_retry sl host port fd addr). rewrite IH.
    unfold prefix, failed_connect; cbn [events rest spare out].
    rewrite <- !app_assoc. reflexivity.
Qed.

Lemma exec_ret_bind A B n (x : A) (k : A -> itree sysE B) s :
  exec n (y <- Ret x ;; k y) s = exec n (k x) s.
Proof. apply exec_observe. reflexivity. Qed.

(** The run of [socket_connect] on the script of a call that succeeds. *)
Lemma socket_connect_run sl host port sfails fd r1 r2 a0 others cfails rc s n :
  Forall (fun r => r < 0) sfails -> 0 <= fd -> 0 <= r1 -> 0 <= r2 ->
  Forall (fun r => r < 0) cfails -> 0 <= rc ->
  exec (connecting_cost sl sfails others cfails + S n)
    (socket_connect sl host port)
    (connecting sfails fd r1 r2 a0 others cfails rc s) =
  {| events := connecting_trace sl host port sfails fd r1 r2 a0 others cfails rc;
     rest := s; spare := S n; out := Returned fd |}.
Proof.
  intros Hsf Hfd Hr1 Hr2 Hcf Hrc.
  replace (connecting_cost sl sfails others cfails + S n)%nat
    with (retry_cost sl (List.length sfails) +
          S (S (S (S (several_cost sl others +
             (retry_cost sl (List.length cfails) + S (S n)))))))%nat
    by (unfold connecting_cost; lia).
  unfold socket_connect, connecting.
  rewrite exec_bind, (create_socket_run sl host port _ _ Hsf Hfd).
  unfold andthen; cbn [out events spare rest].
  rewrite exec_call_bind. cbn [answer_to].
  replace (r1 <? 0) with false by (symmetry; apply Z.ltb_ge; exact Hr1).
  rewrite exec_ret_bind, exec_call_bind. cbn [answer_to].
  replace (r2 <? 0) with false by (symmetry; apply Z.ltb_ge; exact Hr2).
  rewrite exec_ret_bind, exec_call_bind. cbn [answer_to].
  rewrite exec_ret_bind. cbn [h_addr_list]. rewrite exec_ret_bind.
  assert (Hc : forall m,
    exec (several_cost sl others + m)
      (match others with
       | [] => Ret tt
       | _ :: _ =>
           xlog sl LOG_WARNING
             "Hostname with more than one IPv4 address, using the first one detected: %s\n"
             [ArgAddr a0]
       end ;;
       connect_retry sl host port fd
         {| sin_family := AF_INET; sin_port := htons port; sin_addr := a0 |} ;;
       Ret fd) (map AInt cfails ++ AInt rc :: s) =
    prefix (several_addresses sl a0 others)
      (exec m
         (connect_retry sl host port fd (the_address port a0) ;; Ret fd)
         (map AInt cfails ++ AInt rc :: s))).
  { intros m. destruct others as [|a1 more].
    - cbn [several_cost several_addresses Nat.add]. rewrite exec_ret_bind.
      rewrite prefix_nil. reflexivity.
    - cbn [several_cost several_addresses]. apply exec_xlog_bind. }
  rewrite Hc. rewrite (exec_map_out _ _ (fun _ : unit => fd)).
  rewrite (connect_retry_run sl host port fd (the_address port a0) s _ Hcf Hrc).
  unfold connecting_trace, prefix, before, map_out; cbn [events rest spare out].
  rewrite <- !app_assoc. reflexivity.
Qed.

(** ** [socket_connect] returns connected descriptors only *)

Lemma ends_with_app tr1 tr2 it : ends_with tr2 it -> ends_with (tr1 ++ tr2) it.
Proof. intros [pre ->]. exists (tr1 ++ pre). apply app_assoc. Qed.

Lemma ends_with_cons i tr it : ends_with tr it -> ends_with (i :: tr) it.
Proof. intros [pre ->]. exists (i :: pre). reflexivity. Qed.

Lemma ends_with_last tr it : ends_with (tr ++ [it]) it.
Proof. exists tr. reflexivity. Qed.

Lemma create_socket_returns sl host port :
  sat (create_socket sl host port) (fun _ => True)
    (fun fd tr => 0 <= fd /\ In (Did (Socket AF_INET SOCK_STREAM 0) fd) tr).
Proof.
  unfold create_socket.
  apply sat_iter with (Inv := fun _ _ => True); [exact I|].
  intros [] tr _. apply sat_call_bind; auto. intros r.
  destruct (r <? 0) eqn:E.
  - apply sat_xlog_bind; auto. apply sat_call_bind; auto.
    intros []. apply sat_ret; auto.
  - apply sat_ret; [exact I|]. apply Z.ltb_ge in E. split; [exact E|].
    apply in_or_app. right. left. reflexivity.
Qed.

Lemma connect_retry_returns sl host port fd addr :
  sat (connect_retry sl host port fd addr) (fun _ => True)
    (fun _ tr => exists rc, 0 <= rc /\ ends_with tr (Did (Connect fd addr) rc)).
Proof.
  unfold connect_retry.
  apply sat_iter with (Inv := fun _ _ => True); [exact I|].
  intros [] tr _. apply sat_call_bind; auto. intros r.
  destruct (r <? 0) eqn:E.
  - apply sat_xlog_bind; auto. apply sat_call_bind; auto.
    intros []. apply sat_ret; auto.
  - apply sat_ret; [exact I|]. apply Z.ltb_ge in E. exists r.
    split; [exact E|]. apply ends_with_last.
Qed.

Lemma socket_connect_returns sl host port :
  sat (socket_connect sl host port) (fun _ => True) (established port).
Proof.
  unfold socket_connect.
  eapply sat_bind; [apply create_socket_returns|auto|].
  intros fd tr1 [Hfd Hin]. apply sat_call_bind; auto. intros r1.
  destruct (r1 <? 0) eqn:E1;
    [apply sat_noreturn_bind, sat_fatal; auto|apply sat_ret_bind].
  apply sat_call_bind; auto. intros r2.
  destruct (r2 <? 0) eqn:E2;
    [apply sat_noreturn_bind, sat_fatal; auto|apply sat_ret_bind].
  apply sat_call_bind; auto. intros [h|];
    [apply sat_ret_bind|apply sat_noreturn_bind, sat_fatal; auto].
  destruct (h_addr_list h) as [[|a0 others]|];
    [apply sat_noreturn_bind, sat_fatal; auto|apply sat_ret_bind
    |apply sat_noreturn_bind, sat_fatal; auto].
  cbn iota beta.
  assert (G : forall pre : trace,
    sat (connect_retry sl host port fd (the_address port a0) ;; Ret fd)
      (fun _ => True)
      (fun y tr =>
         established port y
           (tr1 ++
            Did (Setsockopt fd SOL_SOCKET SO_RCVTIMEO the_timeout) r1 ::
            Did (Setsockopt fd SOL_SOCKET SO_SNDTIMEO the_timeout) r2 ::
            Did (Gethostbyname2 host AF_INET) (Some h) :: pre ++ tr))).
  { intros pre. eapply sat_bind; [apply connect_retry_returns|auto|].
    intros [] tr2 [rc [Hrc He]]. apply sat_ret; [exact I|].
    rewrite app_nil_r. apply Z.ltb_ge in E1, E2.
    repeat split.
    - exact Hfd.
    - apply in_or_app. left. exact Hin.
    - exists r1. split; [exact E1|]. apply in_or_app. right. left. reflexivity.
    - exists r2. split; [exact E2|]. apply in_or_app. right. right. left.
      reflexivity.
    - exists a0, rc. split; [exact Hrc|].
      apply ends_with_app. do 3 apply ends_with_cons.
      apply ends_with_app. exact He. }
  destruct others as [|a1 more].
  - apply sat_ret_bind. apply (G []).
  - apply sat_xlog_bind; [auto|apply G].
Qed.

Lemma attempts_app tr1 tr2 : attempts (tr1 ++ tr2) = attempts tr1 ++ attempts tr2.
Proof.
  induction tr1 as [|[T e r|T e] tr1 IH]; cbn; [reflexivity| |exact IH].
  destruct e; cbn; rewrite ?IH; reflexivity.
Qed.

Lemma attempts_log sl priority format args :
  attempts (log_items sl priority format args) = [].
Proof. destruct sl; reflexivity. Qed.

Lemma attempts_failed_sockets sl host port fails :
  attempts (flat_map (failed_socket sl host port) fails) = [].
Proof.
  induction fails as [|r fails IH]; [reflexivity|].
  cbn [flat_map]. rewrite attempts_app, IH. unfold failed_socket. cbn.
  rewrite attempts_app, warning_line_items, attempts_log. reflexivity.
Qed.

Lemma attempts_failed_connects sl host port fd addr fails :
  attempts (flat_map (failed_connect sl host port fd addr) fails) = fails.
Proof.
  induction fails as [|r fails IH]; [reflexivity|].
  cbn [flat_map]. rewrite attempts_app, IH. unfold failed_connect. cbn.
  rewrite attempts_app, ?warning_line_items, attempts_log. reflexivity.
Qed.

Lemma attempts_connecting sl host port sfails fd r1 r2 a0 others cfails rc :
  attempts (connecting_trace sl host port sfails fd r1 r2 a0 others cfails rc) =
  cfails ++ [rc].
Proof.
  unfold connecting_trace.
  rewrite !attempts_app, attempts_failed_sockets, attempts_failed_connects.
  replace (attempts (several_addresses sl a0 others)) with (@nil Z)
    by (destruct others; [reflexivity|symmetry; apply attempts_log]).
  reflexivity.
Qed.

(** C4.  [socket_connect] hands no failure to its caller.  Whenever it
    returns, what it returns is a descriptor that [socket] gave, with both
    timeouts set, and the last call was a [connect] of it that succeeded.
    And it does return when the failures stop: if [socket] fails any number
    of times and then succeeds, and [connect] is refused [N] times and then
    accepted, each failure is followed by a warning, a sleep of
    [RETRY_SLEEP] and the same call again, on the same descriptor and
    address, and the function returns at attempt [N + 1]. *)
Theorem socket_connect_retries_until_connected sl host port :
  (forall fuel s fd,
     out (exec fuel (socket_connect sl host port) s) = Returned fd ->
     established port fd (events (exec fuel (socket_connect sl host port) s))) /\
  (forall sfails fd r1 r2 a0 others cfails rc s fuel,
     Forall (fun r => r < 0) sfails -> 0 <= fd -> 0 <= r1 -> 0 <= r2 ->
     Forall (fun r => r < 0) cfails -> 0 <= rc ->
     (connecting_cost sl sfails others cfails < fuel)%nat ->
     let run :=
       exec fuel (socket_connect sl host port)
         (connecting sfails fd r1 r2 a0 others cfails rc s) in
     out run = Returned fd /\
     rest run = s /\
     events run =
       connecting_trace sl host port sfails fd r1 r2 a0 others cfails rc /\
     attempts (events run) = cfails ++ [rc]).
Proof.
  split.
  - intros fuel s fd H.
    exact (proj2 (socket_connect_returns sl host port fuel s) fd H).
  - intros sfails fd r1 r2 a0 others cfails rc s fuel Hsf Hfd Hr1 Hr2 Hcf Hrc
      Hfuel run.
    assert (E : run =
      {| events :=
           connecting_trace sl host port sfails fd r1 r2 a0 others cfails rc;
         rest := s;
         spare := S (fuel - connecting_cost sl sfails others cfails - 1);
         out := Returned fd |}).
    { unfold run.
      replace fuel with
        (connecting_cost sl sfails others cfails +
         S (fuel - connecting_cost sl sfails others cfails - 1))%nat
        at 1 by lia.
      apply socket_connect_run; assumption. }
    rewrite E. cbn [out rest events]. repeat split.
    apply attempts_connecting.
Qed.

Lemma socket_connect_retries_until_connected_witness :
  let run :=
    exec 30 (socket_connect false "dst" 30001)
      (connecting [-1] 3 0 0 2130706433 [] [-1; -1] 0 []) in
  out run = Returned 3 /\ attempts (events run) = [-1; -1; 0].
Proof.
  intros run.
  destruct (proj2 (socket_connect_retries_until_connected false "dst" 30001)
              [-1] 3 0 0 2130706433 [] [-1; -1] 0 [] 30%nat)
    as [H1 [_ [_ H2]]].
  - repeat constructor.
  - lia.
  - lia.
  - lia.
  - repeat constructor.
  - lia.
  - vm_compute. lia.
  - split; [exact H1|exact H2].
Defined.

(** ** Where the process terminates *)

(** How a run stopped can be read off its trace: a run that ended the
    process has the call that ended it as last item, and no other run has
    such a call at all. *)
Lemma exec_stopped R fuel (t : itree sysE R) s :
  match out (exec fuel t s) with
  | Exited c => ends_with (events (exec fuel t s)) (Halt (Exit c))
  | Crashed => exists what, ends_with (events (exec fuel t s)) (Halt (Undefined what))
  | _ => Forall no_halt (events (exec fuel t s))
  end.
Proof.
  revert t s. induction fuel as [|n IH]; intros t s; [constructor|].
  rewrite exec_S. destruct (observe t) as [r|t0|X e k]; [constructor|apply IH|].
  destruct (answer_to e s) as [r s'| |o] eqn:Ha; [|constructor|].
  - cbn [out events before]. specialize (IH (k r) s').
    destruct (out (exec n (k r) s')).
    + constructor; [exact I|exact IH].
    + apply ends_with_cons. exact IH.
    + destruct IH as [w IH]. exists w. apply ends_with_cons. exact IH.
    + constructor; [exact I|exact IH].
    + constructor; [exact I|exact IH].
  - cbn [out events]. destruct e; cbn in Ha; try discriminate;
      try (destruct s as [|[] ?]; discriminate).
    + injection Ha as <-. exists []. reflexivity.
    + injection Ha as <-. exists what, []. reflexivity.
Qed.

Lemma log_harmless sl priority format args :
  Forall harmless (log_items sl priority format args).
Proof. destruct sl; repeat constructor; cbn; auto. Qed.

Lemma is_prefix_app_r tr full tl : is_prefix tr full -> is_prefix tr (full ++ tl).
Proof. intros [m ->]. exists (m ++ tl). symmetry. apply app_assoc. Qed.

Lemma justified_app sl tr1 tr2 :
  Forall harmless tr1 -> halts_justified sl tr2 -> halts_justified sl (tr1 ++ tr2).
Proof.
  intros H1 [H2|(pre & cause & tl & f & a & -> & Hp & Hc & Ht)].
  - left. apply Forall_app. auto.
  - right. exists (tr1 ++ pre), cause, tl, f, a. rewrite app_assoc.
    repeat split; auto. apply Forall_app. auto.
Qed.

Lemma justified_cons sl it tr :
  harmless it -> halts_justified sl tr -> halts_justified sl (it :: tr).
Proof. intros H. apply (justified_app (tr1 := [it])). constructor; auto. Qed.

Lemma justified_fatal sl cause format args tl :
  fatal_cause cause ->
  is_prefix tl (error_line sl format args ++ [Halt (Exit 1)]) ->
  halts_justified sl (cause :: tl).
Proof.
  intros Hc Hp. right. exists [], cause, tl, format, args. repeat split; auto.
Qed.

(** The retry loops make no fatal call and no call that does not return. *)
Lemma create_socket_harmless sl host port :
  all harmless (create_socket sl host port).
Proof.
  unfold create_socket. all_steps; try (split; cbn; tauto); try discriminate.
  apply log_harmless.
Qed.

Lemma connect_retry_harmless sl host port fd addr :
  all harmless (connect_retry sl host port fd addr).
Proof.
  unfold connect_retry. all_steps; try (split; cbn; tauto); try discriminate.
  apply log_harmless.
Qed.

Ltac past_call sl :=
  apply sat_weaken with (P := halts_justified sl) (Q := fun _ => Forall harmless);
  [ | intros ? ?; apply justified_cons;
        [split; cbn; auto; try lia; try discriminate|assumption]
    | intros ? ? ?; constructor;
        [split; cbn; auto; try lia; try discriminate|assumption] ].

Ltac fatal_branch :=
  apply sat_noreturn_bind, sat_fatal;
  [ intros ? ?; eapply justified_fatal;
      [|apply is_prefix_app_r; eassumption]; cbn; auto; reflexivity
  | eapply justified_fatal; [|apply is_prefix_refl]; cbn; auto; reflexivity ].

Lemma socket_connect_halts sl host port :
  sat (socket_connect sl host port) (halts_justified sl)
    (fun _ => Forall harmless).
Proof.
  unfold socket_connect.
  eapply sat_bind; [apply create_socket_harmless|left; assumption|].
  intros fd tr1 H1. cbn beta.
  apply sat_weaken with (P := halts_justified sl) (Q := fun _ => Forall harmless);
    [ | intros ? ?; apply justified_app; [exact H1|assumption]
      | intros ? ? ?; apply Forall_app; split; [exact H1|assumption] ].
  apply sat_call_bind; [left; constructor|discriminate|]. intros r1.
  destruct (r1 <? 0) eqn:E1.
  { apply Z.ltb_lt in E1. fatal_branch. }
  apply Z.ltb_ge in E1. apply sat_ret_bind. past_call sl.
  apply sat_call_bind; [left; constructor|discriminate|]. intros r2.
  destruct (r2 <? 0) eqn:E2.
  { apply Z.ltb_lt in E2. fatal_branch. }
  apply Z.ltb_ge in E2. apply sat_ret_bind. past_call sl.
  apply sat_call_bind; [left; constructor|discriminate|]. intros [h|];
    [apply sat_ret_bind|fatal_branch].
  destruct h as [[[|a0 others]|]]; cbn [h_addr_list];
    [fatal_branch|apply sat_ret_bind|fatal_branch].
  cbn iota beta. past_call sl.
  assert (G : sat
    (connect_retry sl host port fd
       {| sin_family := AF_INET; sin_port := htons port; sin_addr := a0 |} ;;
     Ret fd) (halts_justified sl) (fun _ => Forall harmless)).
  { eapply sat_bind; [apply connect_retry_harmless|left; assumption|].
    intros [] tr2 H2. apply sat_ret; rewrite app_nil_r; [left|]; exact H2. }
  destruct others as [|a1 more].
  - apply sat_ret_bind. exact G.
  - apply sat_xlog_bind.
    + intros tr [tl E]. left. pose proof (log_harmless sl LOG_WARNING
        "Hostname with more than one IPv4 address, using the first one detected: %s\n"
        [ArgAddr a0]) as H.
      rewrite E in H. apply Forall_app in H. tauto.
    + eapply sat_weaken; [exact G| |].
      * intros tr H. apply justified_app; [apply log_harmless|exact H].
      * cbn beta. intros _ tr H. apply Forall_app. split;
          [apply log_harmless|exact H].
Qed.

Lemma is_prefix_snoc tr full it :
  is_prefix tr (full ++ [it]) -> tr = full ++ [it] \/ is_prefix tr full.
Proof.
  revert tr. induction full as [|x full IH]; intros tr Hp.
  - cbn in Hp. apply is_prefix_cons in Hp as [->|[tr' [-> Hp]]].
    + right. apply is_prefix_nil.
    + apply is_prefix_of_nil in Hp as ->. left. reflexivity.
  - cbn in Hp. apply is_prefix_cons in Hp as [->|[tr' [-> Hp]]].
    + right. apply is_prefix_nil.
    + destruct (IH _ Hp) as [->|[tl ->]]; [left; reflexivity|].
      right. exists tl. reflexivity.
Qed.

Lemma harmless_no_halt tr : Forall harmless tr -> Forall no_halt tr.
Proof. apply Forall_impl. intros it [H _]. exact H. Qed.

Lemma no_halt_ends tr T (e : sysE T) :
  Forall no_halt tr -> ends_with tr (Halt e) -> False.
Proof.
  intros H [pre ->]. apply Forall_app in H as [_ H].
  inversion H as [|? ? Hh _]. exact Hh.
Qed.

(** A justified trace that ends with a call that does not return is the
    trace of a process that died of a fatal cause, and the call is
    [exit(1)]. *)
Lemma justified_ends sl tr T (e : sysE T) :
  halts_justified sl tr -> ends_with tr (Halt e) ->
  dies_of sl tr /\ exit_status (Halt e) = Some 1.
Proof.
  intros [H|(pre & cause & tl & f & a & -> & Hp & Hc & Ht)] He.
  - exfalso. eapply no_halt_ends; [apply harmless_no_halt|]; eassumption.
  - apply is_prefix_snoc in Ht as [->|Ht].
    + split; [exists pre, cause, f, a; auto|].
      destruct He as [pre' He].
      change (pre ++ cause :: error_line sl f a ++ [Halt (Exit 1)])
        with (pre ++ (cause :: error_line sl f a) ++ [Halt (Exit 1)])
        in He.
      rewrite app_assoc in He. apply app_inj_tail in He as [_ He].
      rewrite <- He. reflexivity.
    + exfalso. destruct He as [pre' He].
      assert (Hn : Forall no_halt (cause :: tl)).
      { constructor.
        - destruct cause; [exact I|contradiction].
        - destruct Ht as [m Hm].
          pose proof (harmless_no_halt (log_harmless sl LOG_ERR f a)) as Hl.
          rewrite <- error_line_items, Hm in Hl. apply Forall_app in Hl. tauto. }
      apply (no_halt_ends (tr := cause :: tl) (e := e) Hn).
      destruct tl as [|x tl'] using rev_ind.
      * apply app_inj_tail in He as [_ ->]. exists []. reflexivity.
      * change (pre ++ cause :: tl' ++ [x])
          with (pre ++ (cause :: tl') ++ [x]) in He.
        rewrite app_assoc in He. apply app_inj_tail in He as [_ ->].
        exists (cause :: tl'). reflexivity.
Qed.

Lemma exec_fatal R sl format args status n s :
  exec (xlog_cost sl + S n) (xlog sl LOG_ERR format args ;; @exit R status) s =
  {| events := error_line sl format args ++ [Halt (Exit status)];
     rest := s; spare := n; out := Exited status |}.
Proof. rewrite exec_xlog_bind. reflexivity. Qed.

Lemma exec_fatal_bind A B sl format args status n (k : A -> itree sysE B) s :
  exec (xlog_cost sl + S n)
    (x <- (xlog sl LOG_ERR format args ;; exit status) ;; k x) s =
  {| events := error_line sl format args ++ [Halt (Exit status)];
     rest := s; spare := n; out := Exited status |}.
Proof. rewrite exec_bind, exec_fatal. reflexivity. Qed.

(** The three ways in which a call of [socket_connect] ends the process. *)
Lemma read_timeout_fatal sl host port sfails fd r1 s n :
  Forall (fun r => r < 0) sfails -> 0 <= fd -> r1 < 0 ->
  exec (retry_cost sl (List.length sfails) + S (S (xlog_cost sl + S n)))
    (socket_connect sl host port) (map AInt sfails ++ AInt fd :: AInt r1 :: s) =
  {| events :=
       flat_map (failed_socket sl host port) sfails ++
       [Did (Socket AF_INET SOCK_STREAM 0) fd;
        Did (Setsockopt fd SOL_SOCKET SO_RCVTIMEO the_timeout) r1] ++
       error_line sl
         "Failed to set socket read timeout for %s:%d: %s\n"
         [ArgS host; ArgD port; ArgStrerror] ++
       [Halt (Exit 1)];
     rest := s; spare := n; out := Exited 1 |}.
Proof.
  intros Hsf Hfd Hr1. unfold socket_connect.
  rewrite exec_bind, (create_socket_run sl host port _ _ Hsf Hfd).
  unfold andthen; cbn [out events spare rest].
  rewrite exec_call_bind. cbn [answer_to].
  replace (r1 <? 0) with true by (symmetry; apply Z.ltb_lt; exact Hr1).
  rewrite exec_fatal_bind.
  unfold prefix, before; cbn [events rest spare out].
  rewrite <- !app_assoc. reflexivity.
Qed.

Lemma write_timeout_fatal sl host port sfails fd r1 r2 s n :
  Forall (fun r => r < 0) sfails -> 0 <= fd -> 0 <= r1 -> r2 < 0 ->
  exec (retry_cost sl (List.length sfails) + S (S (S (xlog_cost sl + S n))))
    (socket_connect sl host port)
    (map AInt sfails ++ AInt fd :: AInt r1 :: AInt r2 :: s) =
  {| events :=
       flat_map (failed_socket sl host port) sfails ++
       [Did (Socket AF_INET SOCK_STREAM 0) fd;
        Did (Setsockopt fd SOL_SOCKET SO_RCVTIMEO the_timeout) r1;
        Did (Setsockopt fd SOL_SOCKET SO_SNDTIMEO the_timeout) r2] ++
       error_line sl
         "Failed to set socket write timeout for %s:%d: %s\n"
         [ArgS host; ArgD port; ArgStrerror] ++
       [Halt (Exit 1)];
     rest := s; spare := n; out := Exited 1 |}.
Proof.
  intros Hsf Hfd Hr1 Hr2. unfold socket_connect.
  rewrite exec_bind, (create_socket_run sl host port _ _ Hsf Hfd).
  unfold andthen; cbn [out events spare rest].
  rewrite exec_call_bind. cbn [answer_to].
  replace (r1 <? 0) with false by (symmetry; apply Z.ltb_ge; exact Hr1).
  rewrite exec_ret_bind, exec_call_bind. cbn [answer_to].
  replace (r2 <? 0) with true by (symmetry; apply Z.ltb_lt; exact Hr2).
  rewrite exec_fatal_bind.
  unfold prefix, before; cbn [events rest spare out].
  rewrite <- !app_assoc. reflexivity.
Qed.

Lemma no_address_fatal sl host port sfails fd r1 r2 h s n :
  Forall (fun r => r < 0) sfails -> 0 <= fd -> 0 <= r1 -> 0 <= r2 ->
  no_address h ->
  exec (retry_cost sl (List.length sfails) + S (S (S (S (xlog_cost sl + S n)))))
    (socket_connect sl host port)
    (map AInt sfails ++ AInt fd :: AInt r1 :: AInt r2 :: AHost h :: s) =
  {| events :=
       flat_map (failed_socket sl host port) sfails ++
       [Did (Socket AF_INET SOCK_STREAM 0) fd;
        Did (Setsockopt fd SOL_SOCKET SO_RCVTIMEO the_timeout) r1;
        Did (Setsockopt fd SOL_SOCKET SO_SNDTIMEO the_timeout) r2;
        Did (Gethostbyname2 host AF_INET) h] ++
       error_line sl (fst (resolve_error host h))
         (snd (resolve_error host h)) ++
       [Halt (Exit 1)];
     rest := s; spare := n; out := Exited 1 |}.
Proof.
  intros Hsf Hfd Hr1 Hr2 Hh. unfold socket_connect.
  rewrite exec_bind, (create_socket_run sl host port _ _ Hsf Hfd).
  unfold andthen; cbn [out events spare rest].
  rewrite exec_call_bind. cbn [answer_to].
  replace (r1 <? 0) with false by (symmetry; apply Z.ltb_ge; exact Hr1).
  rewrite exec_ret_bind, exec_call_bind. cbn [answer_to].
  replace (r2 <? 0) with false by (symmetry; apply Z.ltb_ge; exact Hr2).
  rewrite exec_ret_bind, exec_call_bind. cbn [answer_to].
  destruct h as [[[[|a0 others]|]]|]; cbn in Hh; try discriminate;
    cbn [resolve_error fst snd];
    rewrite ?exec_ret_bind; cbn [h_addr_list];
    rewrite exec_fatal_bind;
    unfold prefix, before; cbn [events rest spare out];
    rewrite <- !app_assoc; reflexivity.
Qed.

(** C5.  A call of [socket_connect] terminates the process in these cases
    and in no other: a timeout that cannot be set on the socket (the read
    timeout, or the write timeout), and a host name for which the resolver
    gives no IPv4 address.  In each of them the call that failed is followed
    by one log line at error level and by [exit(1)]; the call is made once.
    Conversely a run that ends the process ends it with status 1, after a
    fatal cause, its error line and nothing else; no run crashes. *)
Theorem socket_connect_fatal_conditions sl host port :
  (forall fuel s,
     let run := exec fuel (socket_connect sl host port) s in
     out run <> Crashed /\
     forall c, out run = Exited c -> c = 1 /\ dies_of sl (events run)) /\
  (forall sfails fd r1 s fuel,
     Forall (fun r => r < 0) sfails -> 0 <= fd -> r1 < 0 ->
     (retry_cost sl (List.length sfails) + 7 <= fuel)%nat ->
     let run :=
       exec fuel (socket_connect sl host port)
         (map AInt sfails ++ AInt fd :: AInt r1 :: s) in
     out run = Exited 1 /\
     events run =
       flat_map (failed_socket sl host port) sfails ++
       [Did (Socket AF_INET SOCK_STREAM 0) fd;
        Did (Setsockopt fd SOL_SOCKET SO_RCVTIMEO the_timeout) r1] ++
       error_line sl
         "Failed to set socket read timeout for %s:%d: %s\n"
         [ArgS host; ArgD port; ArgStrerror] ++
       [Halt (Exit 1)]) /\
  (forall sfails fd r1 r2 s fuel,
     Forall (fun r => r < 0) sfails -> 0 <= fd -> 0 <= r1 -> r2 < 0 ->
     (retry_cost sl (List.length sfails) + 7 <= fuel)%nat ->
     let run :=
       exec fuel (socket_connect sl host port)
         (map AInt sfails ++ AInt fd :: AInt r1 :: AInt r2 :: s) in
     out run = Exited 1 /\
     events run =
       flat_map (failed_socket sl host port) sfails ++
       [Did (Socket AF_INET SOCK_STREAM 0) fd;
        Did (Setsockopt fd SOL_SOCKET SO_RCVTIMEO the_timeout) r1;
        Did (Setsockopt fd SOL_SOCKET SO_SNDTIMEO the_timeout) r2] ++
       error_line sl
         "Failed to set socket write timeout for %s:%d: %s\n"
         [ArgS host; ArgD port; ArgStrerror] ++
       [Halt (Exit 1)]) /\
  (forall sfails fd r1 r2 h s fuel,
     Forall (fun r => r < 0) sfails -> 0 <= fd -> 0 <= r1 -> 0 <= r2 ->
     no_address h ->
     (retry_cost sl (List.length sfails) + 7 <= fuel)%nat ->
     let run :=
       exec fuel (socket_connect sl host port)
         (map AInt sfails ++ AInt fd :: AInt r1 :: AInt r2 :: AHost h :: s) in
     out run = Exited 1 /\
     events run =
       flat_map (failed_socket sl host port) sfails ++
       [Did (Socket AF_INET SOCK_STREAM 0) fd;
        Did (Setsockopt fd SOL_SOCKET SO_RCVTIMEO the_timeout) r1;
        Did (Setsockopt fd SOL_SOCKET SO_SNDTIMEO the_timeout) r2;
        Did (Gethostbyname2 host AF_INET) h] ++
       error_line sl (fst (resolve_error host h))
         (snd (resolve_error host h)) ++
       [Halt (Exit 1)]).
Proof.
  repeat split.
  - intros Hc. pose proof (exec_stopped fuel (socket_connect sl host port) s) as Hs.
    rewrite Hc in Hs. destruct Hs as [what Hs].
    destruct (justified_ends
                (proj1 (socket_connect_halts sl host port fuel s)) Hs)
      as [_ H].
    discriminate H.
  - pose proof (exec_stopped fuel (socket_connect sl host port) s) as Hs.
    rewrite H in Hs.
    destruct (justified_ends
                (proj1 (socket_connect_halts sl host port fuel s)) Hs)
      as [_ Hx].
    cbn in Hx. congruence.
  - pose proof (exec_stopped fuel (socket_connect sl host port) s) as Hs.
    rewrite H in Hs.
    apply (justified_ends
             (proj1 (socket_connect_halts sl host port fuel s)) Hs).
  - replace fuel with
      (retry_cost sl (List.length sfails) +
       S (S (xlog_cost sl +
             S (fuel - retry_cost sl (List.length sfails) - 3 - xlog_cost sl))))%nat
      by (destruct sl; cbn [xlog_cost]; lia).
    rewrite read_timeout_fatal; auto.
  - replace fuel with
      (retry_cost sl (List.length sfails) +
       S (S (xlog_cost sl +
             S (fuel - retry_cost sl (List.length sfails) - 3 - xlog_cost sl))))%nat
      by (destruct sl; cbn [xlog_cost]; lia).
    rewrite read_timeout_fatal; auto.
  - replace fuel with
      (retry_cost sl (List.length sfails) +
       S (S (S (xlog_cost sl +
             S (fuel - retry_cost sl (List.length sfails) - 4 - xlog_cost sl)))))%nat
      by (destruct sl; cbn [xlog_cost]; lia).
    rewrite write_timeout_fatal; auto.
  - replace fuel with
      (retry_cost sl (List.length sfails) +
       S (S (S (xlog_cost sl +
             S (fuel - retry_cost sl (List.length sfails) - 4 - xlog_cost sl)))))%nat
      by (destruct sl; cbn [xlog_cost]; lia).
    rewrite write_timeout_fatal; auto.
  - replace fuel with
      (retry_cost sl (List.length sfails) +
       S (S (S (S (xlog_cost sl +
             S (fuel - retry_cost sl (List.length sfails) - 5 - xlog_cost sl))))))%nat
      by (destruct sl; cbn [xlog_cost]; lia).
    rewrite no_address_fatal; auto.
  - replace fuel with
      (retry_cost sl (List.length sfails) +
       S (S (S (S (xlog_cost sl +
             S (fuel - retry_cost sl (List.length sfails) - 5 - xlog_cost sl))))))%nat
      by (destruct sl; cbn [xlog_cost]; lia).
    rewrite no_address_fatal; auto.
Qed.

Lemma socket_connect_fatal_conditions_witness :
  out (exec 20 (socket_connect false "nowhere" 30002)
         ([AInt (-1); AInt 3; AInt 0; AInt 0; AHost None])) = Exited 1.
Proof.
  destruct (socket_connect_fatal_conditions false "nowhere" 30002)
    as [_ [_ [_ H]]].
  apply (H [-1] 3 0 0 None [] 20%nat).
  - repeat constructor.
  - lia.
  - lia.
  - lia.
  - reflexivity.
  - vm_compute. lia.
Defined.

(** ** The order of the steps of [socket_connect] *)

















(** ** A host name with several addresses *)

(** The run of [socket_connect] up to the [connect] loop, on a script in
    which the resolver gives at least one address. *)
Lemma socket_connect_resolved sl host port sfails fd r1 r2 a0 others s n :
  Forall (fun r => r < 0) sfails -> 0 <= fd -> 0 <= r1 -> 0 <= r2 ->
  exec (retry_cost sl (List.length sfails) +
        S (S (S (S (several_cost sl others + n)))))
    (socket_connect sl host port)
    (map AInt sfails ++ AInt fd :: AInt r1 :: AInt r2 ::
     AHost (Some {| h_addr_list := Some (a0 :: others) |}) :: s) =
  prefix
    (flat_map (failed_socket sl host port) sfails ++
     [Did (Socket AF_INET SOCK_STREAM 0) fd;
      Did (Setsockopt fd SOL_SOCKET SO_RCVTIMEO the_timeout) r1;
      Did (Setsockopt fd SOL_SOCKET SO_SNDTIMEO the_timeout) r2;
      Did (Gethostbyname2 host AF_INET)
        (Some {| h_addr_list := Some (a0 :: others) |})] ++
     several_addresses sl a0 others)
    (map_out (fun _ => fd)
       (exec n (connect_retry sl host port fd (the_address port a0)) s)).
Proof.
  intros Hsf Hfd Hr1 Hr2. unfold socket_connect.
  rewrite exec_bind, (create_socket_run sl host port _ _ Hsf Hfd).
  unfold andthen; cbn [out events spare rest].
  rewrite exec_call_bind. cbn [answer_to].
  replace (r1 <? 0) with false by (symmetry; apply Z.ltb_ge; exact Hr1).
  rewrite exec_ret_bind, exec_call_bind. cbn [answer_to].
  replace (r2 <? 0) with false by (symmetry; apply Z.ltb_ge; exact Hr2).
  rewrite exec_ret_bind, exec_call_bind. cbn [answer_to].
  rewrite exec_ret_bind. cbn [h_addr_list]. rewrite exec_ret_bind.
  cbn iota beta.
  assert (Hc :
    exec (several_cost sl others + n)
      (match others with
       | [] => Ret tt
       | _ :: _ =>
           xlog sl LOG_WARNING
             "Hostname with more than one IPv4 address, using the first one detected: %s\n"
             [ArgAddr a0]
       end ;;
       connect_retry sl host port fd
         {| sin_family := AF_INET; sin_port := htons port; sin_addr := a0 |} ;;
       Ret fd) s =
    prefix (several_addresses sl a0 others)
      (exec n
         (connect_retry sl host port fd (the_address port a0) ;; Ret fd) s)).
  { destruct others as [|a1 more].
    - cbn [several_cost several_addresses Nat.add]. rewrite exec_ret_bind.
      rewrite prefix_nil. reflexivity.
    - cbn [several_cost several_addresses]. apply exec_xlog_bind. }
  rewrite Hc. rewrite (exec_map_out _ _ (fun _ : unit => fd)).
  unfold prefix, before, map_out; cbn [events rest spare out].
  rewrite <- !app_assoc. reflexivity.
Qed.

Lemma connect_addresses_app tr1 tr2 :
  connect_addresses (tr1 ++ tr2) = connect_addresses tr1 ++ connect_addresses tr2.
Proof.
  induction tr1 as [|[T e r|T e] tr1 IH]; cbn; [reflexivity| |exact IH].
  destruct e; cbn; rewrite ?IH; reflexivity.
Qed.

Lemma several_warnings_app tr1 tr2 :
  several_warnings (tr1 ++ tr2) =
  (several_warnings tr1 + several_warnings tr2)%nat.
Proof. unfold several_warnings. rewrite filter_app. apply length_app. Qed.

Lemma no_connect_addresses tr :
  Forall (fun it => connect_addresses [it] = []) tr -> connect_addresses tr = [].
Proof.
  induction 1 as [|it tr H _ IH]; [reflexivity|].
  change (it :: tr) with ([it] ++ tr).
  rewrite connect_addresses_app, H, IH. reflexivity.
Qed.

Lemma no_several_warnings tr :
  Forall (fun it => is_several_warning it = false) tr -> several_warnings tr = O.
Proof.
  unfold several_warnings. induction 1 as [|it tr H _ IH]; [reflexivity|].
  cbn. rewrite H. exact IH.
Qed.

Lemma failed_sockets_plain sl host port fails :
  Forall (fun it => connect_addresses [it] = [] /\ is_several_warning it = false)
    (flat_map (failed_socket sl host port) fails).
Proof.
  induction fails as [|r fails IH]; [constructor|].
  cbn [flat_map]. apply Forall_app. split; [|exact IH].
  destruct sl; repeat constructor.
Qed.

(** The [connect] loop connects to the address it was given and logs no
    warning about several addresses. *)
Lemma connect_retry_plain sl host port fd addr :
  all (fun it => Forall (eq (sin_addr addr)) (connect_addresses [it]) /\
                 is_several_warning it = false)
    (connect_retry sl host port fd addr).
Proof.
  unfold connect_retry. all_steps; try discriminate;
    try (destruct sl; repeat constructor).
Qed.

Lemma connect_addresses_all a tr :
  Forall (fun it => Forall (eq a) (connect_addresses [it])) tr ->
  Forall (eq a) (connect_addresses tr).
Proof.
  induction 1 as [|it tr H _ IH]; [constructor|].
  change (it :: tr) with ([it] ++ tr).
  rewrite connect_addresses_app. apply Forall_app. auto.
Qed.

Lemma connect_addresses_failed_connects sl host port fd addr fails :
  connect_addresses (flat_map (failed_connect sl host port fd addr) fails) =
  repeat (sin_addr addr) (List.length fails).
Proof.
  induction fails as [|r fails IH]; [reflexivity|].
  cbn [flat_map List.length repeat]. unfold failed_connect at 1.
  change (Did (Connect fd addr) r ::
          warning_line sl "Failed to connect to %s:%d, retrying: %s\n"
            [ArgS host; ArgD port; ArgStrerror] ++
          [Did (Sleep RETRY_SLEEP) tt])
    with ([Did (Connect fd addr) r] ++
          warning_line sl "Failed to connect to %s:%d, retrying: %s\n"
            [ArgS host; ArgD port; ArgStrerror] ++
          [Did (Sleep RETRY_SLEEP) tt]).
  rewrite <- !app_assoc, !connect_addresses_app, IH.
  replace (connect_addresses
             (warning_line sl "Failed to connect to %s:%d, retrying: %s\n"
                [ArgS host; ArgD port; ArgStrerror]))
    with (@nil in_addr) by (destruct sl; reflexivity).
  reflexivity.
Qed.

(** C8.  When the resolver gives more than one IPv4 address, the call
    of [socket_connect] logs one warning about it, right after the
    resolution, and every [connect] it makes afterwards, however many are
    refused, goes to the first address of the list.  The warning is logged
    once in the whole call.  And the connects are made: when [connect] is
    refused [N] times and then accepted, the call returns after [N + 1]
    connects, each of them to the first address. *)
Theorem socket_connect_first_address sl host port :
  (forall sfails fd r1 r2 a0 a1 more s fuel,
     Forall (fun r => r < 0) sfails -> 0 <= fd -> 0 <= r1 -> 0 <= r2 ->
     (retry_cost sl (List.length sfails) + 7 <= fuel)%nat ->
     let answer := Some {| h_addr_list := Some (a0 :: a1 :: more) |} in
     let run :=
       exec fuel (socket_connect sl host port)
         (map AInt sfails ++ AInt fd :: AInt r1 :: AInt r2 :: AHost answer :: s)
     in
     (exists n,
        events run =
          flat_map (failed_socket sl host port) sfails ++
          [Did (Socket AF_INET SOCK_STREAM 0) fd;
           Did (Setsockopt fd SOL_SOCKET SO_RCVTIMEO the_timeout) r1;
           Did (Setsockopt fd SOL_SOCKET SO_SNDTIMEO the_timeout) r2;
           Did (Gethostbyname2 host AF_INET) answer] ++
          warning_line sl several_format [ArgAddr a0] ++
          events (exec n (connect_retry sl host port fd (the_address port a0)) s))
     /\
     several_warnings (events run) = 1%nat /\
     Forall (eq a0) (connect_addresses (events run))) /\
  (forall sfails fd r1 r2 a0 a1 more cfails rc s fuel,
     Forall (fun r => r < 0) sfails -> 0 <= fd -> 0 <= r1 -> 0 <= r2 ->
     Forall (fun r => r < 0) cfails -> 0 <= rc ->
     (connecting_cost sl sfails (a1 :: more) cfails < fuel)%nat ->
     let answer := Some {| h_addr_list := Some (a0 :: a1 :: more) |} in
     let run :=
       exec fuel (socket_connect sl host port)
         (map AInt sfails ++ AInt fd :: AInt r1 :: AInt r2 :: AHost answer ::
          map AInt cfails ++ AInt rc :: s) in
     out run = Returned fd /\
     events run =
       flat_map (failed_socket sl host port) sfails ++
       [Did (Socket AF_INET SOCK_STREAM 0) fd;
        Did (Setsockopt fd SOL_SOCKET SO_RCVTIMEO the_timeout) r1;
        Did (Setsockopt fd SOL_SOCKET SO_SNDTIMEO the_timeout) r2;
        Did (Gethostbyname2 host AF_INET) answer] ++
       warning_line sl several_format [ArgAddr a0] ++
       flat_map (failed_connect sl host port fd (the_address port a0)) cfails ++
       [Did (Connect fd (the_address port a0)) rc] /\
     several_warnings (events run) = 1%nat /\
     connect_addresses (events run) = repeat a0 (S (List.length cfails))).
Proof.
  assert (A : forall sfails fd r1 r2 a0 a1 more s fuel,
     Forall (fun r => r < 0) sfails -> 0 <= fd -> 0 <= r1 -> 0 <= r2 ->
     (retry_cost sl (List.length sfails) + 7 <= fuel)%nat ->
     let answer := Some {| h_addr_list := Some (a0 :: a1 :: more) |} in
     let run :=
       exec fuel (socket_connect sl host port)
         (map AInt sfails ++ AInt fd :: AInt r1 :: AInt r2 :: AHost answer :: s)
     in
     (exists n,
        events run =
          flat_map (failed_socket sl host port) sfails ++
          [Did (Socket AF_INET SOCK_STREAM 0) fd;
           Did (Setsockopt fd SOL_SOCKET SO_RCVTIMEO the_timeout) r1;
           Did (Setsockopt fd SOL_SOCKET SO_SNDTIMEO the_timeout) r2;
           Did (Gethostbyname2 host AF_INET) answer] ++
          warning_line sl several_format [ArgAddr a0] ++
          events (exec n (connect_retry sl host port fd (the_address port a0)) s))
     /\
     several_warnings (events run) = 1%nat /\
     Forall (eq a0) (connect_addresses (events run))).
  { intros sfails fd r1 r2 a0 a1 more s fuel Hsf Hfd Hr1 Hr2 Hfuel answer run.
    set (n := (fuel - retry_cost sl (List.length sfails) - 4 - xlog_cost sl)%nat).
    assert (E : run =
      prefix
        (flat_map (failed_socket sl host port) sfails ++
         [Did (Socket AF_INET SOCK_STREAM 0) fd;
          Did (Setsockopt fd SOL_SOCKET SO_RCVTIMEO the_timeout) r1;
          Did (Setsockopt fd SOL_SOCKET SO_SNDTIMEO the_timeout) r2;
          Did (Gethostbyname2 host AF_INET) answer] ++
         several_addresses sl a0 (a1 :: more))
        (map_out (fun _ => fd)
           (exec n (connect_retry sl host port fd (the_address port a0)) s))).
    { unfold run, answer.
      replace fuel with
        (retry_cost sl (List.length sfails) +
         S (S (S (S (several_cost sl (a1 :: more) + n)))))%nat at 1
        by (unfold n; destruct sl; cbn [several_cost xlog_cost]; lia).
      apply socket_connect_resolved; assumption. }
    pose proof (all_run n s
      (connect_retry_plain sl host port fd (the_address port a0))) as Hc.
    cbn [sin_addr the_address] in Hc.
    pose proof (failed_sockets_plain sl host port sfails) as Hs.
    rewrite E. cbn [events prefix several_addresses]. rewrite map_out_events.
    fold several_format.
    split; [|split].
    - exists n. rewrite <- !app_assoc. reflexivity.
    - rewrite !several_warnings_app.
      rewrite (no_several_warnings (tr := flat_map _ _)),
        (no_several_warnings (tr := events _)).
      + destruct sl; reflexivity.
      + revert Hc. apply Forall_impl. tauto.
      + revert Hs. apply Forall_impl. tauto.
    - rewrite !connect_addresses_app.
      rewrite (no_connect_addresses (tr := flat_map _ _))
        by (revert Hs; apply Forall_impl; tauto).
      replace (connect_addresses (warning_line sl several_format [ArgAddr a0]))
        with (@nil in_addr) by (destruct sl; reflexivity).
      cbn [connect_addresses app].
      apply connect_addresses_all. revert Hc. apply Forall_impl. tauto. }
  split; [exact A|].
  intros sfails fd r1 r2 a0 a1 more cfails rc s fuel Hsf Hfd Hr1 Hr2 Hcf Hrc
    Hfuel answer run.
  assert (Hfuel' : (retry_cost sl (List.length sfails) + 7 <= fuel)%nat).
  { unfold connecting_cost in Hfuel. cbn [several_cost] in Hfuel.
    destruct sl; cbn [xlog_cost] in Hfuel; lia. }
  destruct (A sfails fd r1 r2 a0 a1 more (map AInt cfails ++ AInt rc :: s) fuel
              Hsf Hfd Hr1 Hr2 Hfuel') as [_ [Hw _]].
  fold answer in Hw. fold run in Hw.
  assert (E : run =
    {| events :=
         connecting_trace sl host port sfails fd r1 r2 a0 (a1 :: more) cfails rc;
       rest := s;
       spare := S (fuel - connecting_cost sl sfails (a1 :: more) cfails - 1);
       out := Returned fd |}).
  { unfold run, answer.
    replace fuel with
      (connecting_cost sl sfails (a1 :: more) cfails +
       S (fuel - connecting_cost sl sfails (a1 :: more) cfails - 1))%nat
      at 1 by lia.
    apply socket_connect_run; assumption. }
  split; [rewrite E; reflexivity|].
  split; [rewrite E; cbn [events]; unfold connecting_trace;
          cbn [several_addresses]; fold several_format;
          rewrite <- ?app_assoc; reflexivity|].
  split; [exact Hw|].
  rewrite E. cbn [events]. unfold connecting_trace.
  rewrite !connect_addresses_app.
  rewrite (no_connect_addresses (tr := flat_map (failed_socket _ _ _) _))
    by (pose proof (failed_sockets_plain sl host port sfails) as Hs;
        revert Hs; apply Forall_impl; tauto).
  rewrite connect_addresses_failed_connects.
  replace (connect_addresses (several_addresses sl a0 (a1 :: more)))
    with (@nil in_addr) by (destruct sl; reflexivity).
  cbn [connect_addresses app sin_addr the_address].
  cbn [repeat]. rewrite (repeat_cons (List.length cfails) a0). reflexivity.
Qed.

Lemma socket_connect_first_address_witness :
  let run := exec 40 (socket_connect false "a" 30001) ok_script in
  out run = Returned 3 /\
  several_warnings (events run) = 1%nat /\
  connect_addresses (events run) = [167772161; 167772161].
Proof.
  intros run.
  destruct (proj2 (socket_connect_first_address false "a" 30001)
              [-1] 3 0 0 167772161 167772162 [] [-1] 0 [] 40%nat)
    as [H1 [_ [H2 H3]]].
  - repeat constructor.
  - lia.
  - lia.
  - lia.
  - repeat constructor.
  - lia.
  - vm_compute. lia.
  - split; [exact H1|]. split; [exact H2|exact H3].
Defined.

(** ** The relay loop: a read that fails *)

(** C1.  When the [read] of an iteration returns zero or less, the iteration
    closes the source descriptor and runs [socket_connect] for the source
    endpoint, and nothing else: it writes nothing, closes nothing but the
    source, and the state it hands to the next iteration carries the
    destination descriptor it was given. *)
Theorem relay_step_read_failure sl src_host src_port dst_host dst_port st
    rv data fuel s :
  rv <= 0 ->
  let run :=
    exec (S (S fuel)) (relay_step sl src_host src_port dst_host dst_port st)
      (ARead rv data :: s) in
  let reconnect := exec fuel (socket_connect sl src_host src_port) s in
  events run =
    Did (Read (src st) BUFFER_SIZE) (rv, data) ::
    Did (Close (src st)) tt :: events reconnect /\
  writes (events run) = [] /\
  closes (events run) = [src st] /\
  reads (events run) = [(rv, data)] /\
  forall next, out run = Returned next ->
    exists fd, out reconnect = Returned fd /\
      next = inl {| src := fd; dst := dst st; buf := store (buf st) data |}.
Proof.
  intros Hrv run reconnect.
  assert (E : run =
    before (Did (Read (src st) BUFFER_SIZE) (rv, data))
      (before (Did (Close (src st)) tt)
         (map_out (fun fd => inl {| src := fd; dst := dst st;
                                    buf := store (buf st) data |})
            reconnect))).
  { unfold run, relay_step. rewrite exec_call_bind. cbn [answer_to].
    apply Z.leb_le in Hrv. rewrite Hrv.
    rewrite exec_call_bind. cbn [answer_to].
    rewrite exec_map_out. reflexivity. }
  pose proof (all_run fuel s (socket_connect_quiet sl src_host src_port)) as Hq.
  fold reconnect in Hq.
  rewrite E. cbn [events before]. rewrite map_out_events.
  repeat split.
  - cbn. apply (quiet_writes Hq).
  - cbn. rewrite (quiet_closes Hq). reflexivity.
  - cbn. rewrite (quiet_reads Hq). reflexivity.
  - intros next Hn. cbn [out before] in Hn.
    destruct (map_out_returned _ _ Hn) as [fd [H1 H2]]. eauto.
Qed.

Lemma relay_step_read_failure_witness :
  events (exec 12 (relay_step false "src" 30002 "dst" 30001
                     {| src := 4; dst := 3; buf := [x00; x00] |})
            [ARead 0 []; AInt 5; AInt 0; AInt 0;
             AHost (Some {| h_addr_list := Some [2130706433] |}); AInt 0]) =
  Did (Read 4 BUFFER_SIZE) (0, []) :: Did (Close 4) tt ::
  events (exec 10 (socket_connect false "src" 30002)
            [AInt 5; AInt 0; AInt 0;
             AHost (Some {| h_addr_list := Some [2130706433] |}); AInt 0]).
Proof.
  apply (relay_step_read_failure false "src" 30002 "dst" 30001
           {| src := 4; dst := 3; buf := [x00; x00] |} (rv := 0) []
           10
           [AInt 5; AInt 0; AInt 0;
            AHost (Some {| h_addr_list := Some [2130706433] |}); AInt 0]).
  lia.
Defined.

(** ** The relay loop: a write that fails *)

(** C2.  When the [read] of an iteration returns a chunk and the [write] of
    it returns zero or less, the iteration closes the destination
    descriptor and runs [socket_connect] for the destination endpoint: the
    chunk was handed to [write] once and is not handed again, the source is
    neither read again nor closed, and the state handed to the next
    iteration carries the source descriptor it was given. *)
Theorem relay_step_write_failure sl src_host src_port dst_host dst_port st
    rv data w fuel s :
  0 < rv -> w <= 0 ->
  let run :=
    exec (S (S (S fuel)))
      (relay_step sl src_host src_port dst_host dst_port st)
      (ARead rv data :: AInt w :: s) in
  let reconnect := exec fuel (socket_connect sl dst_host dst_port) s in
  let chunk := firstn (Z.to_nat rv) (store (buf st) data) in
  events run =
    Did (Read (src st) BUFFER_SIZE) (rv, data) ::
    Did (Write (dst st) chunk) w ::
    Did (Close (dst st)) tt :: events reconnect /\
  writes (events run) = [chunk] /\
  closes (events run) = [dst st] /\
  reads (events run) = [(rv, data)] /\
  forall next, out run = Returned next ->
    exists fd, out reconnect = Returned fd /\
      next = inl {| src := src st; dst := fd; buf := store (buf st) data |}.
Proof.
  intros Hrv Hw run reconnect chunk.
  assert (E : run =
    before (Did (Read (src st) BUFFER_SIZE) (rv, data))
      (before (Did (Write (dst st) chunk) w)
         (before (Did (Close (dst st)) tt)
            (map_out (fun fd => inl {| src := src st; dst := fd;
                                       buf := store (buf st) data |})
               reconnect)))).
  { unfold run, relay_step. rewrite exec_call_bind. cbn [answer_to].
    replace (rv <=? 0) with false by (symmetry; apply Z.leb_gt; exact Hrv).
    rewrite exec_call_bind. cbn [answer_to].
    apply Z.leb_le in Hw. rewrite Hw.
    rewrite exec_call_bind. cbn [answer_to].
    rewrite exec_map_out. reflexivity. }
  pose proof (all_run fuel s (socket_connect_quiet sl dst_host dst_port)) as Hq.
  fold reconnect in Hq.
  rewrite E. cbn [events before]. rewrite map_out_events.
  repeat split.
  - cbn. rewrite (quiet_writes Hq). reflexivity.
  - cbn. rewrite (quiet_closes Hq). reflexivity.
  - cbn. rewrite (quiet_reads Hq). reflexivity.
  - intros next Hn. cbn [out before] in Hn.
    destruct (map_out_returned _ _ Hn) as [fd [H1 H2]]. eauto.
Qed.

Lemma relay_step_write_failure_witness :
  writes (events
    (exec 13 (relay_step false "src" 30002 "dst" 30001
                {| src := 4; dst := 3; buf := [x00; x00] |})
       [ARead 2 [x41; x42]; AInt (-1); AInt 5; AInt 0; AInt 0;
        AHost (Some {| h_addr_list := Some [2130706433] |}); AInt 0])) =
  [[x41; x42]].
Proof.
  apply (relay_step_write_failure false "src" 30002 "dst" 30001
           {| src := 4; dst := 3; buf := [x00; x00] |} (rv := 2) [x41; x42]
           (w := -1) 10
           [AInt 5; AInt 0; AInt 0;
            AHost (Some {| h_addr_list := Some [2130706433] |}); AInt 0]);
    lia.
Defined.

(** ** The relay loop hands on what it reads *)









Lemma all_impl (phi psi : item -> Prop) R (t : itree sysE R) :
  (forall it, phi it -> psi it) -> all phi t -> all psi t.
Proof.
  intros H Ht. eapply sat_weaken; [exact Ht| |]; cbn beta; intros;
    eapply Forall_impl; eauto.
Qed.















(** ** Entry to the relay loop *)

(** C7.  A run of [main_loop] starts with the run of [socket_connect] for
    the destination.  Until that has returned nothing else happens; once it
    has, the destination is connected, and the run of [socket_connect] for
    the source follows, on what is left of the script. *)
Theorem main_loop_connects_destination_first sl src_host src_port dst_host
    dst_port fuel s :
  let run := exec fuel (main_loop sl src_host src_port dst_host dst_port) s in
  let d := exec fuel (socket_connect sl dst_host dst_port) s in
  match out d with
  | Returned fd =>
      let sr := exec (spare d) (socket_connect sl src_host src_port) (rest d) in
      established dst_port fd (events d) /\
      exists tl, events run = events d ++ events sr ++ tl /\
        (tl = [] \/ exists fs, out sr = Returned fs)
  | _ => events run = events d
  end.
Proof.
  intros run d. unfold run, main_loop. rewrite exec_bind. fold d.
  pose proof (proj2 (socket_connect_returns sl dst_host dst_port fuel s)) as He.
  fold d in He.
  unfold andthen. destruct (out d) as [fd| | | |]; try reflexivity.
  split; [apply He; reflexivity|].
  rewrite exec_bind. unfold andthen.
  destruct (out (exec (spare d) (socket_connect sl src_host src_port) (rest d)))
    as [fs| | | |] eqn:Hs; cbn [events prefix];
    try (exists []; rewrite app_nil_r; split; [reflexivity|left; reflexivity]).
  eexists. split; [reflexivity|]. right. eauto.
Qed.

(** ** The command line *)

(** What one argument does to the scan, whatever was scanned before. *)
Lemma scan_help arg args sl sh dh sp dp :
  starts_with_dash arg = true -> second_char arg = "h"%char ->
  scan_args (arg :: args) sl sh dh sp dp = (print_help ;; Ret 0).
Proof. intros H1 H2. cbn [scan_args]. rewrite H1, H2. reflexivity. Qed.

Lemma scan_version arg args sl sh dh sp dp :
  starts_with_dash arg = true -> second_char arg = "v"%char ->
  scan_args (arg :: args) sl sh dh sp dp =
  (printf "%s\n" [ArgS PACKAGE_STRING] ;; Ret 0).
Proof. intros H1 H2. cbn [scan_args]. rewrite H1, H2. reflexivity. Qed.

Lemma scan_syslog arg args sl sh dh sp dp :
  starts_with_dash arg = true -> second_char arg = "l"%char ->
  scan_args (arg :: args) sl sh dh sp dp = scan_args args true sh dh sp dp.
Proof. intros H1 H2. cbn [scan_args]. rewrite H1, H2. reflexivity. Qed.

Lemma scan_unrecognized arg args sl sh dh sp dp :
  starts_with_dash arg = true ->
  ~ In (second_char arg) ["h"; "v"; "l"; "s"; "d"]%char ->
  scan_args (arg :: args) sl sh dh sp dp =
  (print_usage ;;
   xlog sl LOG_ERR "invalid argument: -%c\n" [ArgC (second_char arg)] ;;
   Ret 2).
Proof.
  intros H1 H2. cbn [scan_args]. rewrite H1.
  repeat match goal with
  | |- context [Ascii.eqb (second_char arg) ?c] =>
      destruct (Ascii.eqb_spec (second_char arg) c) as [E|_];
      [exfalso; apply H2; rewrite E; cbn; tauto|]
  end.
  reflexivity.
Qed.

Lemma scan_positional arg args sl sh dh sp dp :
  starts_with_dash arg = false ->
  scan_args (arg :: args) sl sh dh sp dp =
  match sh, dh with
  | None, _ => scan_args args sl (Some arg) dh sp dp
  | Some _, None => scan_args args sl sh (Some arg) sp dp
  | Some _, Some _ => scan_args args sl sh dh sp dp
  end.
Proof. intros H. cbn [scan_args]. rewrite H. reflexivity. Qed.

Lemma scan_src_port_next value args sl sh dh sp dp :
  scan_args ("-s"%string :: value :: args) sl sh dh sp dp =
  scan_args args sl sh dh (to_int (strtoul value)) dp.
Proof. reflexivity. Qed.

Lemma scan_src_port_attached c value args sl sh dh sp dp :
  scan_args (String "-" (String "s" (String c value)) :: args) sl sh dh sp dp =
  scan_args args sl sh dh (to_int (strtoul (String c value))) dp.
Proof. reflexivity. Qed.

Lemma scan_dst_port_next value args sl sh dh sp dp :
  scan_args ("-d"%string :: value :: args) sl sh dh sp dp =
  scan_args args sl sh dh sp (to_int (strtoul value)).
Proof. reflexivity. Qed.

Lemma scan_dst_port_attached c value args sl sh dh sp dp :
  scan_args (String "-" (String "d" (String c value)) :: args) sl sh dh sp dp =
  scan_args args sl sh dh sp (to_int (strtoul (String c value))).
Proof. reflexivity. Qed.

Lemma scan_end sl sh dh sp dp :
  scan_args [] sl sh dh sp dp =
  match sh, dh with
  | None, _ =>
      print_usage ;; xlog sl LOG_ERR "SRC_HOST is required\n" [] ;; Ret 2
  | Some _, None =>
      print_usage ;; xlog sl LOG_ERR "DST_HOST is required\n" [] ;; Ret 2
  | Some src_host, Some dst_host =>
      main_loop sl src_host sp dst_host dp ;; Ret 0
  end.
Proof. reflexivity. Qed.

Lemma usage_error_run sl format args n s :
  exec (S (xlog_cost sl + S n))
    (print_usage ;; xlog sl LOG_ERR format args ;; Ret 2) s =
  {| events := Did (Fprintf stdout usage_text []) tt ::
               error_line sl format args;
     rest := s; spare := S n; out := Returned 2 |}.
Proof.
  unfold print_usage, printf. rewrite exec_call_bind. cbn [answer_to].
  rewrite exec_xlog_bind, exec_ret. unfold before, prefix; cbn.
  rewrite app_nil_r. reflexivity.
Qed.

(** [-h] and [-v], wherever the scan meets them: the text on standard
    output, status 0, and nothing of the relay. *)
Lemma help_run arg args sl sh dh sp dp n s :
  starts_with_dash arg = true -> second_char arg = "h"%char ->
  exec (S (S n)) (scan_args (arg :: args) sl sh dh sp dp) s =
  {| events := [Did (Fprintf stdout help_text []) tt];
     rest := s; spare := S n; out := Returned 0 |}.
Proof. intros H1 H2. rewrite (scan_help _ _ _ _ _ _ _ H1 H2). reflexivity. Qed.

Lemma version_run arg args sl sh dh sp dp n s :
  starts_with_dash arg = true -> second_char arg = "v"%char ->
  exec (S (S n)) (scan_args (arg :: args) sl sh dh sp dp) s =
  {| events := [Did (Fprintf stdout "%s\n" [ArgS PACKAGE_STRING]) tt];
     rest := s; spare := S n; out := Returned 0 |}.
Proof. intros H1 H2. rewrite (scan_version _ _ _ _ _ _ _ H1 H2). reflexivity. Qed.

(** A flag that is not known, wherever the scan meets it, and a host that
    is missing at the end of the scan: the usage, one line at error level,
    status 2, and nothing of the relay. *)
Lemma unrecognized_run arg args sl sh dh sp dp n s :
  starts_with_dash arg = true ->
  ~ In (second_char arg) ["h"; "v"; "l"; "s"; "d"]%char ->
  exec (S (xlog_cost sl + S n)) (scan_args (arg :: args) sl sh dh sp dp) s =
  {| events := Did (Fprintf stdout usage_text []) tt ::
               error_line sl "invalid argument: -%c\n"
                 [ArgC (second_char arg)];
     rest := s; spare := S n; out := Returned 2 |}.
Proof.
  intros H1 H2. rewrite (scan_unrecognized _ _ _ _ _ _ _ H1 H2).
  apply usage_error_run.
Qed.

Lemma missing_src_host_run sl dh sp dp n s :
  exec (S (xlog_cost sl + S n)) (scan_args [] sl None dh sp dp) s =
  {| events := Did (Fprintf stdout usage_text []) tt ::
               error_line sl "SRC_HOST is required\n" [];
     rest := s; spare := S n; out := Returned 2 |}.
Proof. rewrite scan_end. apply usage_error_run. Qed.

Lemma missing_dst_host_run sl src_host sp dp n s :
  exec (S (xlog_cost sl + S n)) (scan_args [] sl (Some src_host) None sp dp) s =
  {| events := Did (Fprintf stdout usage_text []) tt ::
               error_line sl "DST_HOST is required\n" [];
     rest := s; spare := S n; out := Returned 2 |}.
Proof. rewrite scan_end. apply usage_error_run. Qed.

(** C9, where the source departs from it.  With [-s] (or [-d]) as the last
    argument and no value attached, the hosts are missing, yet [main]
    neither prints the usage nor returns 2: it hands the null pointer
    [argv[argc]] to [strtoul], which is undefined. *)
Theorem main_port_flag_without_value :
  exec 10 (main ["remote-dump1090"; "-s"]%string) [] =
  {| events := [Did (Signal SIGPIPE SIG_IGN) tt;
                Halt (Undefined "strtoul(NULL, NULL, 10)")];
     rest := []; spare := 8%nat; out := Crashed |}.
Proof. reflexivity. Qed.

(** ** Port values *)

Lemma read_digits_no_digit s acc :
  no_leading_digit s = true -> read_digits s acc = acc.
Proof.
  destruct s as [|c s]; [reflexivity|]. cbn.
  destruct (digit c); [discriminate|reflexivity].
Qed.

Lemma read_digits_app d tl acc :
  all_digits d = true -> no_leading_digit tl = true ->
  read_digits (d ++ tl) acc = read_digits d acc.
Proof.
  revert acc. induction d as [|c d IH]; intros acc Hd Ht.
  - cbn. apply read_digits_no_digit, Ht.
  - cbn in *. destruct (digit c); [|discriminate]. apply IH; assumption.
Qed.

Lemma digit_plain c v :
  digit c = Some v ->
  isspace c = false /\ Ascii.eqb c "-" = false /\ Ascii.eqb c "+" = false.
Proof.
  intros H. repeat split.
  - unfold digit in H. unfold isspace.
    destruct ((48 <=? Z.of_nat (nat_of_ascii c)) &&
              (Z.of_nat (nat_of_ascii c) <=? 57)) eqn:E; [|discriminate].
    apply andb_true_iff in E as [E1 E2].
    apply Z.leb_le in E1, E2.
    apply orb_false_iff. split.
    + apply Z.eqb_neq. lia.
    + apply andb_false_iff. right. apply Z.leb_gt. lia.
  - destruct (Ascii.eqb_spec c "-") as [->|]; [discriminate H|reflexivity].
  - destruct (Ascii.eqb_spec c "+") as [->|]; [discriminate H|reflexivity].
Qed.

Lemma strtoul_no_digit value :
  no_leading_digit (unsigned_part value) = true -> strtoul value = 0.
Proof.
  unfold strtoul, unsigned_part.
  destruct (skip_spaces value) as [|c s]; [reflexivity|].
  destruct (Ascii.eqb c "-"); [|destruct (Ascii.eqb c "+")];
    intros H; rewrite (read_digits_no_digit _ 0 H); reflexivity.
Qed.

Lemma strtoul_leading_digits d tl :
  valid_decimal d = true -> no_leading_digit tl = true ->
  strtoul (d ++ tl) = Z.min (read_digits d 0) ULONG_MAX.
Proof.
  intros Hd Ht. destruct d as [|c d]; [discriminate|].
  cbn [valid_decimal] in Hd.
  assert (Hc : exists v, digit c = Some v).
  { cbn in Hd. destruct (digit c); [eauto|discriminate]. }
  destruct Hc as [v Hc]. destruct (digit_plain c Hc) as [H1 [H2 H3]].
  unfold strtoul. cbn [append skip_spaces]. rewrite H1, H2, H3.
  change (String c (d ++ tl)) with (String c d ++ tl)%string.
  rewrite (read_digits_app _ _ 0 Hd Ht).
  destruct (Z.gtb_spec (read_digits (String c d) 0) ULONG_MAX); lia.
Qed.

Lemma exec_main argv fuel s :
  exec (S fuel) (main argv) s =
  before (Did (Signal SIGPIPE SIG_IGN) tt)
    (exec fuel (scan_args (tl argv) false None None 30002 30001) s).
Proof. unfold main. rewrite exec_call_bind. reflexivity. Qed.

Lemma relay_entered sl src_host dst_host sp dp fuel s :
  exec fuel (scan_args [] sl (Some src_host) (Some dst_host) sp dp) s =
  map_out (fun _ => 0) (exec fuel (main_loop sl src_host sp dst_host dp) s).
Proof. rewrite scan_end. apply exec_map_out. Qed.

(** C10 as the specification states it: a value that is not a valid
    decimal number is read as port 0.  It does not hold: ["80abc"] is read
    as 80, and the source endpoint is connected on port 80. *)
Lemma port_80abc_is_read_as_80 :
  valid_decimal "80abc" = false /\
  to_int (strtoul "80abc") = 80 /\
  connect_ports
    (events (exec 40
               (main ["remote-dump1090"; "-s"; "80abc"; "src"; "dst"]%string)
               both_connect)) = [30001; 80].
Proof. vm_compute. repeat split; reflexivity. Qed.

(** C10, as the source has it.  The value of [-s] or of [-d], attached or
    in the next argument, is read by [strtoul] and assigned to an [int],
    with no check of any kind: the scan goes on, and with both hosts given
    [main] enters the relay loop with that port.  A value without a leading
    digit (after white space and sign) is read as 0; a value that starts
    with digits is read as the number they form, whatever follows them. *)
Theorem port_values_are_not_checked :
  (forall prog value src_host dst_host fuel s,
     starts_with_dash src_host = false -> starts_with_dash dst_host = false ->
     exec (S fuel) (main [prog; "-s"%string; value; src_host; dst_host]) s =
     before (Did (Signal SIGPIPE SIG_IGN) tt)
       (map_out (fun _ => 0)
          (exec fuel
             (main_loop false src_host (to_int (strtoul value)) dst_host 30001)
             s))) /\
  (forall prog c value src_host dst_host fuel s,
     starts_with_dash src_host = false -> starts_with_dash dst_host = false ->
     exec (S fuel)
       (main [prog; String "-" (String "s" (String c value));
              src_host; dst_host]) s =
     before (Did (Signal SIGPIPE SIG_IGN) tt)
       (map_out (fun _ => 0)
          (exec fuel
             (main_loop false src_host (to_int (strtoul (String c value)))
                dst_host 30001)
             s))) /\
  (forall prog value src_host dst_host fuel s,
     starts_with_dash src_host = false -> starts_with_dash dst_host = false ->
     exec (S fuel) (main [prog; "-d"%string; value; src_host; dst_host]) s =
     before (Did (Signal SIGPIPE SIG_IGN) tt)
       (map_out (fun _ => 0)
          (exec fuel
             (main_loop false src_host 30002 dst_host (to_int (strtoul value)))
             s))) /\
  (forall prog c value src_host dst_host fuel s,
     starts_with_dash src_host = false -> starts_with_dash dst_host = false ->
     exec (S fuel)
       (main [prog; String "-" (String "d" (String c value));
              src_host; dst_host]) s =
     before (Did (Signal SIGPIPE SIG_IGN) tt)
       (map_out (fun _ => 0)
          (exec fuel
             (main_loop false src_host 30002 dst_host
                (to_int (strtoul (String c value))))
             s))) /\
  (forall value,
     no_leading_digit (unsigned_part value) = true -> strtoul value = 0) /\
  (forall digits tl,
     valid_decimal digits = true -> no_leading_digit tl = true ->
     strtoul (digits ++ tl) = Z.min (read_digits digits 0) ULONG_MAX).
Proof.
  repeat split.
  - intros prog value src_host dst_host fuel s Hs Hd.
    rewrite exec_main. cbn [tl].
    rewrite scan_src_port_next, (scan_positional _ _ _ _ _ _ _ Hs),
      (scan_positional _ _ _ _ _ _ _ Hd), relay_entered.
    reflexivity.
  - intros prog c value src_host dst_host fuel s Hs Hd.
    rewrite exec_main. cbn [tl].
    rewrite scan_src_port_attached, (scan_positional _ _ _ _ _ _ _ Hs),
      (scan_positional _ _ _ _ _ _ _ Hd), relay_entered.
    reflexivity.
  - intros prog value src_host dst_host fuel s Hs Hd.
    rewrite exec_main. cbn [tl].
    rewrite scan_dst_port_next, (scan_positional _ _ _ _ _ _ _ Hs),
      (scan_positional _ _ _ _ _ _ _ Hd), relay_entered.
    reflexivity.
  - intros prog c value src_host dst_host fuel s Hs Hd.
    rewrite exec_main. cbn [tl].
    rewrite scan_dst_port_attached, (scan_positional _ _ _ _ _ _ _ Hs),
      (scan_positional _ _ _ _ _ _ _ Hd), relay_entered.
    reflexivity.
  - apply strtoul_no_digit.
  - apply strtoul_leading_digits.
Qed.

Lemma port_values_are_not_checked_witness :
  exec 40 (main ["remote-dump1090"; "-s"; "port"; "src"; "dst"]%string)
    both_connect =
  before (Did (Signal SIGPIPE SIG_IGN) tt)
    (map_out (fun _ => 0)
       (exec 39 (main_loop false "src" (to_int (strtoul "port")) "dst" 30001)
          both_connect)).
Proof.
  apply (proj1 port_values_are_not_checked
           "remote-dump1090"%string "port"%string "src"%string "dst"%string
           39%nat both_connect);
    reflexivity.
Defined.

(** A port beyond 16 bits is not refused either: it reaches [connect] cut
    down by [htons]. *)
Example port_70000_is_not_refused :
  connect_ports
    (events (exec 40
               (main ["remote-dump1090"; "-s70000"; "src"; "dst"]%string)
               both_connect)) = [30001; 4464].
Proof. vm_compute. reflexivity. Qed.

(** ** [main] returns before the relay loop or not at all *)

Lemma relay_step_continues sl src_host src_port dst_host dst_port st :
  sat (relay_step sl src_host src_port dst_host dst_port st) (fun _ => True)
    (fun lr _ => exists st', lr = inl st').
Proof.
  unfold relay_step. apply sat_call_bind; auto. intros [rv data].
  cbn iota beta. destruct (rv <=? 0).
  - apply sat_call_bind; auto. intros [].
    eapply sat_bind; [apply socket_connect_returns|auto|].
    intros fd tr1 _. apply sat_ret; eauto.
  - apply sat_call_bind; auto. intros w. destruct (w <=? 0).
    + apply sat_call_bind; auto. intros [].
      eapply sat_bind; [apply socket_connect_returns|auto|].
      intros fd tr1 _. apply sat_ret; eauto.
    + apply sat_ret; eauto.
Qed.

Lemma main_loop_never_returns sl src_host src_port dst_host dst_port :
  sat (main_loop sl src_host src_port dst_host dst_port) (fun _ => True)
    (fun _ _ => False).
Proof.
  unfold main_loop.
  eapply sat_bind; [apply socket_connect_returns|auto|]. intros d tr1 _.
  eapply sat_bind; [apply socket_connect_returns|auto|]. intros s' tr2 _.
  cbv zeta. apply sat_noreturn_bind.
  apply sat_iter with (Inv := fun _ _ => True); [exact I|].
  intros st tr _. eapply sat_weaken; [apply relay_step_continues|auto|].
  cbn beta. intros lr tr3 [st' ->]. exact I.
Qed.

Lemma usage_error_leaves sl format args :
  sat (print_usage ;; xlog sl LOG_ERR format args ;; Ret 2) (fun _ => True)
    leaves.
Proof.
  unfold print_usage, printf. apply sat_call_bind; auto. intros [].
  apply sat_xlog_bind; auto. apply sat_ret; [exact I|].
  right. split; [reflexivity|]. exists sl, format, args.
  rewrite app_nil_r. reflexivity.
Qed.

(** Whatever the arguments, when [main] returns it returns in one of the
    ways of [leaves]; the relay loop, once entered, is not left. *)
Lemma scan_args_leaves args :
  forall sl sh dh sp dp,
    sat (scan_args args sl sh dh sp dp) (fun _ => True) leaves.
Proof.
  induction args as [args IH] using (induction_ltof1 _ (@List.length string)).
  unfold ltof in IH. intros sl sh dh sp dp.
  destruct args as [|arg args].
  - rewrite scan_end. destruct sh as [src_host|]; [destruct dh as [dst_host|]|];
      try apply usage_error_leaves.
    apply sat_noreturn_bind, main_loop_never_returns.
  - cbn [scan_args].
    destruct (starts_with_dash arg).
    + destruct (Ascii.eqb (second_char arg) "h").
      { unfold print_help, printf. apply sat_call_bind; auto. intros [].
        apply sat_ret; [exact I|]. left. auto. }
      destruct (Ascii.eqb (second_char arg) "v").
      { unfold printf. apply sat_call_bind; auto. intros [].
        apply sat_ret; [exact I|]. left. auto. }
      destruct (Ascii.eqb (second_char arg) "l").
      { apply IH. cbn. lia. }
      destruct (Ascii.eqb (second_char arg) "s").
      { destruct (after_flag arg); [|apply IH; cbn; lia].
        destruct args as [|value args];
          [apply sat_undefined; exact I|apply IH; cbn; lia]. }
      destruct (Ascii.eqb (second_char arg) "d").
      { destruct (after_flag arg); [|apply IH; cbn; lia].
        destruct args as [|value args];
          [apply sat_undefined; exact I|apply IH; cbn; lia]. }
      apply usage_error_leaves.
    + destruct sh; [destruct dh|]; apply IH; cbn; lia.
Qed.

(** When [main] returns, it has not entered the relay loop: it returns 0
    after printing the help or the version on standard output and nothing
    else, or 2 after printing the usage on standard output and one line at
    error level.  No call to the network was made. *)
Lemma main_leaves argv fuel s rv :
  out (exec fuel (main argv) s) = Returned rv ->
  exists tr,
    events (exec fuel (main argv) s) = Did (Signal SIGPIPE SIG_IGN) tt :: tr /\
    leaves rv tr.
Proof.
  destruct fuel as [|fuel]; [discriminate|].
  rewrite exec_main. cbn [out events before]. intros H.
  eexists. split; [reflexivity|].
  exact (proj2 (scan_args_leaves (tl argv) false None None 30002 30001 fuel s)
           rv H).
Qed.

(** ** The calls each function makes *)

Lemma all_undefined (phi : item -> Prop) R what :
  phi (Halt (Undefined what)) -> all phi (@undefined R what).
Proof. intros H. apply sat_undefined; auto. Qed.

Lemma log_connector_items sl host port priority format args :
  priority = LOG_WARNING \/ priority = LOG_ERR ->
  Forall (connector_item sl host port) (log_items sl priority format args).
Proof.
  intros H. apply Forall_forall. intros it Hin.
  eapply ci_log; eassumption.
Qed.

Lemma socket_connect_items sl host port :
  all (connector_item sl host port) (socket_connect sl host port).
Proof.
  unfold socket_connect, create_socket, connect_retry.
  all_steps; try discriminate;
    try (apply log_connector_items; auto);
    try match goal with r : void |- _ => destruct r end;
    try match goal with r : unit |- _ => destruct r end;
    constructor.
Qed.

Lemma relay_step_items sl src_host src_port dst_host dst_port st :
  all (relay_item sl src_host src_port dst_host dst_port)
    (relay_step sl src_host src_port dst_host dst_port st).
Proof.
  unfold relay_step.
  apply all_bind; [apply all_call; [intros; apply ri_read|discriminate]|].
  intros [rv data]. cbn iota beta zeta. destruct (rv <=? 0).
  - apply all_bind;
      [apply all_call; [intros []; apply ri_close|discriminate]|].
    intros _. apply all_bind; [|intros; apply all_ret].
    apply all_impl with (phi := connector_item sl src_host src_port);
      [intros it H; apply ri_src, H|apply socket_connect_items].
  - apply all_bind; [apply all_call; [intros; apply ri_write|discriminate]|].
    intros w. destruct (w <=? 0); [|apply all_ret].
    apply all_bind;
      [apply all_call; [intros []; apply ri_close|discriminate]|].
    intros _. apply all_bind; [|intros; apply all_ret].
    apply all_impl with (phi := connector_item sl dst_host dst_port);
      [intros it H; apply ri_dst, H|apply socket_connect_items].
Qed.

Lemma main_loop_items sl src_host src_port dst_host dst_port :
  all (relay_item sl src_host src_port dst_host dst_port)
    (main_loop sl src_host src_port dst_host dst_port).
Proof.
  unfold main_loop.
  apply all_bind.
  { apply all_impl with (phi := connector_item sl dst_host dst_port);
      [intros it H; apply ri_dst, H|apply socket_connect_items]. }
  intros d. apply all_bind.
  { apply all_impl with (phi := connector_item sl src_host src_port);
      [intros it H; apply ri_src, H|apply socket_connect_items]. }
  intros s. cbv zeta. apply all_bind.
  { apply all_iter. intros st. apply relay_step_items. }
  intros st. apply all_bind; [|intros _];
    (apply all_call; [intros []; apply ri_close|discriminate]).
Qed.

(** ** Where the messages go *)

Lemma log_item_sunk sl priority format args it :
  priority = LOG_WARNING \/ priority = LOG_ERR ->
  In it (log_items sl priority format args) ->
  sunk sl it /\ off_stdout it /\ level_ok it.
Proof.
  intros Hp Hin. destruct sl; cbn in Hin.
  - destruct Hin as [<-|[]]. cbn. auto.
  - destruct Hin as [<-|[<-|[]]]; cbn; [|auto].
    repeat split. destruct Hp as [->| ->]; cbn; auto.
Qed.

Lemma connector_item_sunk sl host port it :
  connector_item sl host port it -> sunk sl it /\ off_stdout it /\ level_ok it.
Proof.
  intros [r|fd o r|r|fd a r| |priority format args it' Hp Hin|];
    try (cbn; tauto).
  eapply log_item_sunk; eassumption.
Qed.

Lemma relay_item_sunk sl src_host src_port dst_host dst_port it :
  relay_item sl src_host src_port dst_host dst_port it ->
  sunk sl it /\ off_stdout it /\ level_ok it.
Proof.
  intros [it' H|it' H|fd r|fd bytes r|fd];
    try (cbn; tauto); eapply connector_item_sunk; eassumption.
Qed.

(** [main_loop] and what it calls write their messages where
    [send_to_syslog] says, and nothing on standard output. *)
Theorem main_loop_messages sl src_host src_port dst_host dst_port fuel s :
  Forall (fun it => sunk sl it /\ off_stdout it)
    (events (exec fuel (main_loop sl src_host src_port dst_host dst_port) s)).
Proof.
  pose proof (all_run fuel s
    (main_loop_items sl src_host src_port dst_host dst_port)) as H.
  revert H. apply Forall_impl. intros it H.
  apply relay_item_sunk in H. tauto.
Qed.

Lemma one_sink_of_all args sl R (t : itree sysE R) :
  all (fun it => sunk sl it /\ level_ok it) t ->
  sat t (one_sink args sl) (fun _ => one_sink args sl).
Proof.
  intros H. eapply sat_weaken; [exact H| |]; cbn beta;
    intros; exists sl; auto.
Qed.

Lemma usage_error_one_sink args sl format fargs :
  sat (print_usage ;; xlog sl LOG_ERR format fargs ;; Ret 2)
    (one_sink args sl) (fun _ => one_sink args sl).
Proof.
  apply one_sink_of_all. unfold print_usage, printf.
  apply all_bind; [apply all_call; [intros; cbn; auto|discriminate]|].
  intros _. apply all_bind; [|intros; apply all_ret].
  apply all_xlog. apply Forall_forall. intros it Hin.
  assert (Hp : LOG_ERR = LOG_WARNING \/ LOG_ERR = LOG_ERR) by auto.
  destruct (@log_item_sunk _ _ _ _ _ Hp Hin) as [H1 [_ H2]]. auto.
Qed.

Lemma one_sink_tail arg args sl sl2 R (t : itree sysE R) :
  (sl = true -> sl2 = true) ->
  (not_l_flag arg -> sl2 = sl) ->
  sat t (one_sink args sl2) (fun _ => one_sink args sl2) ->
  sat t (one_sink (arg :: args) sl) (fun _ => one_sink (arg :: args) sl).
Proof.
  intros H1 H2 H.
  assert (G : forall tr, one_sink args sl2 tr -> one_sink (arg :: args) sl tr).
  { intros tr [sl' [Ha [Hb Hc]]]. exists sl'. repeat split; auto.
    intros Hf. inversion Hf as [|? ? Hx Hy]. rewrite (Hb Hy). auto. }
  eapply sat_weaken; [exact H| |]; cbn beta; auto.
Qed.

Lemma one_sink_skip value arg args sl R (t : itree sysE R) :
  sat t (one_sink args sl) (fun _ => one_sink args sl) ->
  sat t (one_sink (arg :: value :: args) sl)
    (fun _ => one_sink (arg :: value :: args) sl).
Proof.
  intros H.
  assert (G : forall tr,
    one_sink args sl tr -> one_sink (arg :: value :: args) sl tr).
  { intros tr [sl' [Ha [Hb Hc]]]. exists sl'. repeat split; auto.
    intros Hf. inversion Hf as [|? ? Hx Hy]. inversion Hy. auto. }
  eapply sat_weaken; [exact H| |]; cbn beta; auto.
Qed.

Lemma scan_args_one_sink args :
  forall sl sh dh sp dp,
    sat (scan_args args sl sh dh sp dp) (one_sink args sl)
      (fun _ => one_sink args sl).
Proof.
  induction args as [args IH] using (induction_ltof1 _ (@List.length string)).
  unfold ltof in IH. intros sl sh dh sp dp.
  destruct args as [|arg args].
  - rewrite scan_end. destruct sh as [src_host|]; [destruct dh as [dst_host|]|];
      try apply usage_error_one_sink.
    apply one_sink_of_all. apply all_bind; [|intros; apply all_ret].
    eapply all_impl; [|apply main_loop_items].
    intros it H. apply relay_item_sunk in H. tauto.
  - cbn [scan_args].
    assert (Hsame : forall t : itree sysE Z,
      sat t (one_sink args sl) (fun _ => one_sink args sl) ->
      sat t (one_sink (arg :: args) sl) (fun _ => one_sink (arg :: args) sl)).
    { intros t. apply one_sink_tail; auto. }
    destruct (starts_with_dash arg) eqn:Hd.
    + destruct (Ascii.eqb (second_char arg) "h").
      { apply one_sink_of_all. unfold print_help, printf.
        apply all_bind; [apply all_call; [intros; cbn; auto|discriminate]|].
        intros; apply all_ret. }
      destruct (Ascii.eqb (second_char arg) "v").
      { apply one_sink_of_all. unfold printf.
        apply all_bind; [apply all_call; [intros; cbn; auto|discriminate]|].
        intros; apply all_ret. }
      destruct (Ascii.eqb_spec (second_char arg) "l") as [El|_].
      { apply (one_sink_tail (sl2 := true)); [auto| |apply IH; cbn; lia].
        intros Hn. exfalso. exact (Hn Hd El). }
      destruct (Ascii.eqb (second_char arg) "s").
      { destruct (after_flag arg); [|apply Hsame, IH; cbn; lia].
        destruct args as [|value args].
        - apply one_sink_of_all, all_undefined. cbn. auto.
        - apply one_sink_skip, IH. cbn. lia. }
      destruct (Ascii.eqb (second_char arg) "d").
      { destruct (after_flag arg); [|apply Hsame, IH; cbn; lia].
        destruct args as [|value args].
        - apply one_sink_of_all, all_undefined. cbn. auto.
        - apply one_sink_skip, IH. cbn. lia. }
      apply usage_error_one_sink.
    + destruct sh; [destruct dh|]; apply Hsame, IH; cbn; lia.
Qed.

Lemma main_one_sink argv fuel s :
  one_sink (tl argv) false (events (exec fuel (main argv) s)).
Proof.
  destruct fuel as [|fuel]; [exists false; repeat split; auto|].
  rewrite exec_main. cbn [events before].
  destruct (proj1 (scan_args_one_sink (tl argv) false None None 30002 30001
                     fuel s)) as [sl' [Ha [Hb Hc]]].
  exists sl'. repeat split; auto. constructor; [cbn; auto|exact Hc].
Qed.

(** The messages of one run of [main] all go to the same place: no run
    writes both to the system log and to standard error. *)
Theorem main_logs_to_one_sink argv fuel s :
  exists sl, Forall (sunk sl) (events (exec fuel (main argv) s)).
Proof.
  destruct (main_one_sink argv fuel s) as [sl [_ [_ H]]].
  exists sl. revert H. apply Forall_impl. tauto.
Qed.

(** Which place: the system log when [-l] is the first argument, standard
    error when no argument is [-l]. *)
Theorem l_flag_selects_the_sink :
  (forall prog flag args fuel s,
     starts_with_dash flag = true -> second_char flag = "l"%char ->
     Forall (sunk true) (events (exec fuel (main (prog :: flag :: args)) s))) /\
  (forall argv fuel s,
     Forall not_l_flag (tl argv) ->
     Forall (sunk false) (events (exec fuel (main argv) s))).
Proof.
  split.
  - intros prog flag args fuel s Hd Hl.
    destruct fuel as [|fuel]; [constructor|].
    rewrite exec_main. cbn [events before tl].
    rewrite (scan_syslog _ _ _ _ _ _ _ Hd Hl).
    destruct (proj1 (scan_args_one_sink args true None None 30002 30001
                       fuel s)) as [sl' [Ha [_ Hc]]].
    rewrite (Ha eq_refl) in Hc.
    constructor; [exact I|]. revert Hc. apply Forall_impl. tauto.
  - intros argv fuel s Hn.
    destruct (main_one_sink argv fuel s) as [sl [_ [Hb H]]].
    rewrite (Hb Hn) in H. revert H. apply Forall_impl. tauto.
Qed.

Lemma l_flag_selects_the_sink_witness :
  Forall (sunk true)
    (events (exec 20 (main ["remote-dump1090"; "-l"; "-x"]%string) [])) /\
  Forall (sunk false)
    (events (exec 20 (main ["remote-dump1090"; "-x"]%string) [])).
Proof.
  split.
  - apply (proj1 l_flag_selects_the_sink); reflexivity.
  - apply (proj2 l_flag_selects_the_sink).
    repeat constructor; intros _; discriminate.
Defined.

(** Every message of every run of [main] has level warning or error: the
    level [unknown] of [xlog] is never used. *)
Theorem messages_are_warnings_or_errors argv fuel s :
  Forall level_ok (events (exec fuel (main argv) s)).
Proof.
  destruct (main_one_sink argv fuel s) as [sl [_ [_ H]]].
  revert H. apply Forall_impl. tauto.
Qed.

(** ** Rules for automata *)

Section Automaton.

Variable St : Type.
Variable step : St -> item -> option St.

Lemma feed_app st tr1 tr2 :
  feed step st (tr1 ++ tr2) =
  match feed step st tr1 with
  | Some st1 => feed step st1 tr2
  | None => None
  end.
Proof.
  revert st. induction tr1 as [|it tr1 IH]; intros st; [reflexivity|].
  cbn. destruct (step st it); [apply IH|reflexivity].
Qed.

Lemma tracks_weaken R (t : itree sysE R) st0 (inv inv' : St -> Prop)
    (post post' : R -> St -> Prop) :
  tracks step t st0 inv post ->
  (forall st, inv st -> inv' st) ->
  (forall x st, post x st -> post' x st) ->
  tracks step t st0 inv' post'.
Proof.
  intros H Hi Hp. eapply sat_weaken; [exact H| |]; cbn beta.
  - intros tr [st [E Hs]]. eauto.
  - intros x tr [st [E Hs]]. eauto.
Qed.

Lemma tracks_ret R (x : R) st0 (inv : St -> Prop) (post : R -> St -> Prop) :
  inv st0 -> post x st0 -> tracks step (Ret x) st0 inv post.
Proof. intros Hi Hp. apply sat_ret; exists st0; auto. Qed.

Lemma tracks_bind A B (t : itree sysE A) (k : A -> itree sysE B) st0
    (inv : St -> Prop) (mid : A -> St -> Prop) (post : B -> St -> Prop) :
  tracks step t st0 inv mid ->
  (forall x st1, mid x st1 -> tracks step (k x) st1 inv post) ->
  tracks step (ITree.bind t k) st0 inv post.
Proof.
  intros Ht Hk. eapply sat_bind; [exact Ht|auto|].
  intros x tr1 [st1 [E1 Hm]]. cbn beta.
  eapply sat_weaken; [exact (Hk x st1 Hm)| |]; cbn beta.
  - intros tr [st [E Hs]]. exists st. rewrite feed_app, E1. auto.
  - intros y tr [st [E Hs]]. exists st. rewrite feed_app, E1. auto.
Qed.

Lemma tracks_call T (e : sysE T) st0 (inv : St -> Prop) :
  inv st0 ->
  (forall r, exists st1, step st0 (Did e r) = Some st1 /\ inv st1) ->
  (halts e = true -> exists st1, step st0 (Halt e) = Some st1 /\ inv st1) ->
  tracks step (call e) st0 inv (fun r st1 => step st0 (Did e r) = Some st1).
Proof.
  intros H0 H1 Hh. apply sat_call.
  - exists st0. auto.
  - intros r. destruct (H1 r) as [st1 [E Hi]]. exists st1. cbn. rewrite E. auto.
  - intros H. destruct (Hh H) as [st1 [E Hi]]. exists st1. cbn. rewrite E. auto.
  - intros r. destruct (H1 r) as [st1 [E Hi]]. exists st1. cbn. rewrite E. auto.
Qed.

(** A call and what follows it: the state after the call is computed. *)
Lemma tracks_call_bind T R (e : sysE T) (k : T -> itree sysE R) st0
    (inv : St -> Prop) (post : R -> St -> Prop) :
  inv st0 ->
  (halts e = true -> exists st1, step st0 (Halt e) = Some st1 /\ inv st1) ->
  (forall r, exists st1,
     step st0 (Did e r) = Some st1 /\ tracks step (k r) st1 inv post) ->
  tracks step (x <- call e ;; k x) st0 inv post.
Proof.
  intros H0 Hh Hk. eapply tracks_bind; [apply tracks_call; auto|].
  - intros r. destruct (Hk r) as [st1 [E Ht]]. exists st1. split; [exact E|].
    destruct (Ht O []) as [[st [Ef Hi]] _]. cbn in Ef. injection Ef as <-.
    exact Hi.
  - intros r st1 E. cbn beta in E. destruct (Hk r) as [st1' [E' Ht]].
    rewrite E in E'. injection E' as <-. exact Ht.
Qed.

Lemma tracks_exit R status st0 (inv : St -> Prop) (post : R -> St -> Prop) :
  inv st0 ->
  (exists st1, step st0 (Halt (Exit status)) = Some st1 /\ inv st1) ->
  tracks step (exit status) st0 inv post.
Proof.
  intros H0 [st1 [E Hi]]. apply sat_exit.
  - exists st0. auto.
  - exists st1. cbn. rewrite E. auto.
Qed.

(** A log line the automaton does not look at. *)
Lemma tracks_xlog_bind R sl priority format args (k : itree sysE R) st0
    (inv : St -> Prop) (post : R -> St -> Prop) :
  (forall it, In it (log_items sl priority format args) ->
              step st0 it = Some st0) ->
  tracks step k st0 inv post ->
  tracks step (xlog sl priority format args ;; k) st0 inv post.
Proof.
  intros Hs Hk.
  assert (H0 : inv st0).
  { destruct (Hk O []) as [[st [Ef Hi]] _]. cbn in Ef. injection Ef as <-.
    exact Hi. }
  assert (Hl : forall pre tl,
    log_items sl priority format args = pre ++ tl -> feed step st0 pre = Some st0).
  { intros pre. induction pre as [|it pre IH] using rev_ind; intros tl E;
      [reflexivity|].
    rewrite feed_app, (IH ([it] ++ tl)) by (rewrite E, <- app_assoc; reflexivity).
    cbn. rewrite Hs; [reflexivity|].
    rewrite E. apply in_or_app. left. apply in_or_app. right. left. reflexivity. }
  apply sat_xlog_bind.
  - intros tr [tl E]. exists st0. split; [exact (Hl tr tl E)|exact H0].
  - eapply sat_weaken; [exact Hk| |]; cbn beta.
    + intros tr [st [E Hi]]. exists st.
      rewrite feed_app, (Hl _ [] (eq_sym (app_nil_r _))). auto.
    + intros x tr [st [E Hi]]. exists st.
      rewrite feed_app, (Hl _ [] (eq_sym (app_nil_r _))). auto.
Qed.

Lemma tracks_xlog sl priority format args st0 (inv : St -> Prop) :
  (forall it, In it (log_items sl priority format args) ->
              step st0 it = Some st0) ->
  inv st0 ->
  tracks step (xlog sl priority format args) st0 inv (fun _ st => st = st0).
Proof.
  intros Hs H0.
  assert (Hl : forall pre tl,
    log_items sl priority format args = pre ++ tl -> feed step st0 pre = Some st0).
  { intros pre. induction pre as [|it pre IH] using rev_ind; intros tl E;
      [reflexivity|].
    rewrite feed_app, (IH ([it] ++ tl)) by (rewrite E, <- app_assoc; reflexivity).
    cbn. rewrite Hs; [reflexivity|].
    rewrite E. apply in_or_app. left. apply in_or_app. right. left. reflexivity. }
  apply sat_xlog.
  - intros tr [tl E]. exists st0. split; [exact (Hl tr tl E)|exact H0].
  - exists st0. split; [|reflexivity]. exact (Hl _ [] (eq_sym (app_nil_r _))).
Qed.

Lemma tracks_iter I R (body : I -> itree sysE (I + R)) (i0 : I) st0
    (Inv : I -> St -> Prop) (inv : St -> Prop) (post : R -> St -> Prop) :
  Inv i0 st0 ->
  (forall i st, Inv i st ->
     tracks step (body i) st inv
       (fun lr st' =>
          match lr with
          | inl i' => Inv i' st'
          | inr x => post x st'
          end)) ->
  tracks step (ITree.iter body i0) st0 inv post.
Proof.
  intros H0 Hb.
  apply sat_iter with
    (Inv := fun i tr => exists st, feed step st0 tr = Some st /\ Inv i st).
  - exists st0. auto.
  - intros i tr [st [E Hi]]. eapply sat_weaken; [exact (Hb i st Hi)| |];
      cbn beta.
    + intros tr2 [st2 [E2 H2]]. exists st2. rewrite feed_app, E. auto.
    + intros [i'|x] tr2 [st2 [E2 H2]]; exists st2; rewrite feed_app, E; auto.
Qed.

Lemma tracks_run R (t : itree sysE R) st0 inv post fuel s :
  tracks step t st0 inv post ->
  exists st, feed step st0 (events (exec fuel t s)) = Some st /\ inv st.
Proof. intros H. apply H. Qed.

End Automaton.

(** ** The descriptors of the relay *)

Lemma holds_head fd open : holds fd (fd :: open) = true.
Proof. unfold holds. cbn. rewrite Z.eqb_refl. reflexivity. Qed.

Lemma holds_second x fd open : holds fd (x :: fd :: open) = true.
Proof. unfold holds. cbn. rewrite Z.eqb_refl. cbn. apply orb_true_r. Qed.

Lemma release_head fd open : release fd (fd :: open) = open.
Proof. cbn. rewrite Z.eqb_refl. reflexivity. Qed.

Lemma release_second x fd : release fd [x; fd] = [x].
Proof.
  cbn. destruct (Z.eqb_spec fd x) as [->|_]; [reflexivity|].
  rewrite Z.eqb_refl. reflexivity.
Qed.

Lemma fd_step_log sl priority format args open it :
  In it (log_items sl priority format args) -> fd_step open it = Some open.
Proof. destruct sl; cbn; intros H; decompose [or] H; subst; tauto. Qed.

Lemma fatal_fds R sl format args open (post : R -> list Z -> Prop) :
  at_most_two open ->
  tracks fd_step (xlog sl LOG_ERR format args ;; exit 1) open at_most_two post.
Proof.
  intros H. apply tracks_xlog_bind; [apply fd_step_log|].
  apply tracks_exit; [exact H|]. exists open. split; [reflexivity|exact H].
Qed.

Lemma create_socket_fds sl host port open :
  (List.length open < 2)%nat ->
  tracks fd_step (create_socket sl host port) open at_most_two
    (fun fd st => st = fd :: open).
Proof.
  intros Hl. unfold create_socket.
  apply tracks_iter with (Inv := fun _ st => st = open); [reflexivity|].
  intros [] st ->.
  apply tracks_call_bind; [unfold at_most_two; lia|discriminate|].
  intros r. cbn [fd_step]. destruct (r <? 0).
  - exists open. split; [reflexivity|].
    apply tracks_xlog_bind; [apply fd_step_log|].
    apply tracks_call_bind; [unfold at_most_two; lia|discriminate|].
    intros []. exists open. split; [reflexivity|].
    apply tracks_ret; [unfold at_most_two; lia|reflexivity].
  - rewrite (proj2 (Nat.ltb_lt _ _) Hl). exists (r :: open).
    split; [reflexivity|].
    apply tracks_ret; [unfold at_most_two; cbn; lia|reflexivity].
Qed.

Lemma connect_retry_fds sl host port fd addr open :
  holds fd open = true -> at_most_two open ->
  tracks fd_step (connect_retry sl host port fd addr) open at_most_two
    (fun _ st => st = open).
Proof.
  intros Hh Hl. unfold connect_retry.
  apply tracks_iter with (Inv := fun _ st => st = open); [reflexivity|].
  intros [] st ->. apply tracks_call_bind; [exact Hl|discriminate|].
  intros r. cbn [fd_step]. rewrite Hh. exists open. split; [reflexivity|].
  destruct (r <? 0).
  - apply tracks_xlog_bind; [apply fd_step_log|].
    apply tracks_call_bind; [exact Hl|discriminate|].
    intros []. exists open. split; [reflexivity|].
    apply tracks_ret; [exact Hl|reflexivity].
  - apply tracks_ret; [exact Hl|reflexivity].
Qed.

Lemma socket_connect_fds sl host port open :
  (List.length open < 2)%nat ->
  tracks fd_step (socket_connect sl host port) open at_most_two
    (fun fd st => st = fd :: open).
Proof.
  intros Hl. unfold socket_connect.
  eapply tracks_bind; [apply create_socket_fds, Hl|].
  intros fd st ->. cbv zeta.
  assert (H2 : at_most_two (fd :: open)) by (unfold at_most_two; cbn; lia).
  apply tracks_call_bind; [exact H2|discriminate|].
  intros r1. cbn [fd_step]. rewrite holds_head. eexists. split; [reflexivity|].
  eapply tracks_bind with (mid := fun _ st => st = fd :: open).
  { destruct (r1 <? 0); [apply fatal_fds, H2|apply tracks_ret; auto]. }
  intros _ st ->.
  apply tracks_call_bind; [exact H2|discriminate|].
  intros r2. cbn [fd_step]. rewrite holds_head. eexists. split; [reflexivity|].
  eapply tracks_bind with (mid := fun _ st => st = fd :: open).
  { destruct (r2 <? 0); [apply fatal_fds, H2|apply tracks_ret; auto]. }
  intros _ st ->.
  apply tracks_call_bind; [exact H2|discriminate|].
  intros h. cbn [fd_step]. eexists. split; [reflexivity|].
  eapply tracks_bind with (mid := fun _ st => st = fd :: open).
  { destruct h; [apply tracks_ret; auto|apply fatal_fds, H2]. }
  intros h' st ->.
  eapply tracks_bind with (mid := fun _ st => st = fd :: open).
  { destruct (h_addr_list h') as [[|a0 others]|];
      [apply fatal_fds, H2|apply tracks_ret; auto|apply fatal_fds, H2]. }
  intros [a0 others] st ->.
  eapply tracks_bind with (mid := fun _ st => st = fd :: open).
  { destruct others; [apply tracks_ret; auto|].
    apply tracks_xlog; [apply fd_step_log|exact H2]. }
  intros _ st ->.
  eapply tracks_bind;
    [apply connect_retry_fds; [apply holds_head|exact H2]|].
  intros _ st ->. apply tracks_ret; [exact H2|reflexivity].
Qed.

Lemma relay_step_fds sl src_host src_port dst_host dst_port st open :
  holds_both st open ->
  tracks fd_step (relay_step sl src_host src_port dst_host dst_port st) open
    at_most_two
    (fun lr open' =>
       match lr with
       | inl st' => holds_both st' open'
       | inr _ => False
       end).
Proof.
  intros Hb.
  assert (Hs : holds (src st) open = true).
  { destruct Hb as [-> | ->]; [apply holds_head|apply holds_second]. }
  assert (Hd : holds (dst st) open = true).
  { destruct Hb as [-> | ->]; [apply holds_second|apply holds_head]. }
  assert (H2 : at_most_two open).
  { destruct Hb as [-> | ->]; unfold at_most_two; cbn; lia. }
  assert (Rs : release (src st) open = [dst st]).
  { destruct Hb as [-> | ->]; [apply release_head|apply release_second]. }
  assert (Rd : release (dst st) open = [src st]).
  { destruct Hb as [-> | ->]; [apply release_second|apply release_head]. }
  unfold relay_step.
  apply tracks_call_bind; [exact H2|discriminate|].
  intros [rv data]. cbn [fd_step]. rewrite Hs. exists open.
  split; [reflexivity|]. cbn iota beta. destruct (rv <=? 0).
  - apply tracks_call_bind; [exact H2|discriminate|].
    intros []. cbn [fd_step]. rewrite Hs, Rs. eexists. split; [reflexivity|].
    eapply tracks_bind; [apply socket_connect_fds; cbn; lia|].
    intros fd open' ->.
    apply tracks_ret; [unfold at_most_two; cbn; lia|left; reflexivity].
  - apply tracks_call_bind; [exact H2|discriminate|].
    intros w. cbn [fd_step]. rewrite Hd. exists open. split; [reflexivity|].
    destruct (w <=? 0).
    + apply tracks_call_bind; [exact H2|discriminate|].
      intros []. cbn [fd_step]. rewrite Hd, Rd. eexists.
      split; [reflexivity|].
      eapply tracks_bind; [apply socket_connect_fds; cbn; lia|].
      intros fd open' ->.
      apply tracks_ret; [unfold at_most_two; cbn; lia|right; reflexivity].
    + apply tracks_ret; [exact H2|exact Hb].
Qed.

Lemma main_loop_fds sl src_host src_port dst_host dst_port :
  tracks fd_step (main_loop sl src_host src_port dst_host dst_port) []
    at_most_two (fun _ _ => True).
Proof.
  unfold main_loop.
  eapply tracks_bind; [apply socket_connect_fds; cbn; lia|].
  intros d open ->.
  eapply tracks_bind; [apply socket_connect_fds; cbn; lia|].
  intros s' open ->. cbv zeta.
  eapply tracks_bind with (mid := fun _ _ => False); [|intros _ _ []].
  apply tracks_iter with (Inv := holds_both); [left; reflexivity|].
  intros st open Hb.
  eapply tracks_weaken; [apply relay_step_fds, Hb|auto|].
  intros [st'|x] open' H; exact H.
Qed.

(** The relay keeps to its descriptors.  In every run of [main_loop] each
    [setsockopt], [connect], [read], [write] and [close] is made on a
    descriptor that [socket] returned and that was not closed since: no
    descriptor is used after its [close] and none is closed twice.  And the
    run never holds more than two descriptors: one is closed before the
    [socket] that replaces it. *)
Theorem main_loop_descriptors sl src_host src_port dst_host dst_port fuel s :
  exists open,
    feed fd_step []
      (events (exec fuel (main_loop sl src_host src_port dst_host dst_port) s))
    = Some open /\
    (List.length open <= 2)%nat.
Proof.
  exact (tracks_run fuel s
           (main_loop_fds sl src_host src_port dst_host dst_port)).
Qed.

(** The automaton tells traces apart: a [read] on a descriptor that was
    closed is refused, and so is a third descriptor. *)
Lemma fd_step_refuses :
  feed fd_step []
    [Did (Socket AF_INET SOCK_STREAM 0) 3; Did (Close 3) tt;
     Did (Read 3 BUFFER_SIZE) (0, [])] = None /\
  feed fd_step []
    [Did (Socket AF_INET SOCK_STREAM 0) 3; Did (Socket AF_INET SOCK_STREAM 0) 4;
     Did (Socket AF_INET SOCK_STREAM 0) 5] = None.
Proof. split; reflexivity. Qed.

(** ** The pace of the retries *)

Lemma pace_step_log sl priority format args owed it :
  In it (log_items sl priority format args) -> pace_step owed it = Some owed.
Proof. destruct sl; cbn; intros H; decompose [or] H; subst; tauto. Qed.

Lemma fatal_pace R sl format args (post : R -> bool -> Prop) :
  tracks pace_step (xlog sl LOG_ERR format args ;; exit 1) false
    (fun _ => True) post.
Proof.
  apply tracks_xlog_bind; [apply pace_step_log|].
  apply tracks_exit; [exact I|]. exists false. split; [reflexivity|exact I].
Qed.

Lemma create_socket_pace sl host port :
  tracks pace_step (create_socket sl host port) false (fun _ => True)
    (fun _ owed => owed = false).
Proof.
  unfold create_socket.
  apply tracks_iter with (Inv := fun _ owed => owed = false); [reflexivity|].
  intros [] owed ->. apply tracks_call_bind; [exact I|discriminate|].
  intros r. cbn [pace_step]. eexists. split; [reflexivity|].
  destruct (r <? 0).
  - apply tracks_xlog_bind; [apply pace_step_log|].
    apply tracks_call_bind; [exact I|discriminate|].
    intros []. exists false. split; [reflexivity|].
    apply tracks_ret; [exact I|reflexivity].
  - apply tracks_ret; [exact I|reflexivity].
Qed.

Lemma connect_retry_pace sl host port fd addr :
  tracks pace_step (connect_retry sl host port fd addr) false (fun _ => True)
    (fun _ owed => owed = false).
Proof.
  unfold connect_retry.
  apply tracks_iter with (Inv := fun _ owed => owed = false); [reflexivity|].
  intros [] owed ->. apply tracks_call_bind; [exact I|discriminate|].
  intros r. cbn [pace_step]. eexists. split; [reflexivity|].
  destruct (r <? 0).
  - apply tracks_xlog_bind; [apply pace_step_log|].
    apply tracks_call_bind; [exact I|discriminate|].
    intros []. exists false. split; [reflexivity|].
    apply tracks_ret; [exact I|reflexivity].
  - apply tracks_ret; [exact I|reflexivity].
Qed.

Lemma socket_connect_pace sl host port :
  tracks pace_step (socket_connect sl host port) false (fun _ => True)
    (fun _ owed => owed = false).
Proof.
  unfold socket_connect.
  eapply tracks_bind; [apply create_socket_pace|].
  intros fd owed ->. cbv zeta.
  apply tracks_call_bind; [exact I|discriminate|].
  intros r1. exists false. split; [reflexivity|].
  eapply tracks_bind with (mid := fun _ owed => owed = false).
  { destruct (r1 <? 0); [apply fatal_pace|apply tracks_ret; auto]. }
  intros _ owed ->.
  apply tracks_call_bind; [exact I|discriminate|].
  intros r2. exists false. split; [reflexivity|].
  eapply tracks_bind with (mid := fun _ owed => owed = false).
  { destruct (r2 <? 0); [apply fatal_pace|apply tracks_ret; auto]. }
  intros _ owed ->.
  apply tracks_call_bind; [exact I|discriminate|].
  intros h. exists false. split; [reflexivity|].
  eapply tracks_bind with (mid := fun _ owed => owed = false).
  { destruct h; [apply tracks_ret; auto|apply fatal_pace]. }
  intros h' owed ->.
  eapply tracks_bind with (mid := fun _ owed => owed = false).
  { destruct (h_addr_list h') as [[|a0 others]|];
      [apply fatal_pace|apply tracks_ret; auto|apply fatal_pace]. }
  intros [a0 others] owed ->.
  eapply tracks_bind with (mid := fun _ owed => owed = false).
  { destruct others; [apply tracks_ret; auto|].
    apply tracks_xlog; [apply pace_step_log|exact I]. }
  intros _ owed ->.
  eapply tracks_bind; [apply connect_retry_pace|].
  intros _ owed ->. apply tracks_ret; [exact I|reflexivity].
Qed.

Lemma relay_step_pace sl src_host src_port dst_host dst_port st :
  tracks pace_step (relay_step sl src_host src_port dst_host dst_port st) false
    (fun _ => True)
    (fun lr owed =>
       match lr with
       | inl _ => owed = false
       | inr _ => False
       end).
Proof.
  unfold relay_step. apply tracks_call_bind; [exact I|discriminate|].
  intros [rv data]. exists false. split; [reflexivity|]. cbn iota beta.
  destruct (rv <=? 0).
  - apply tracks_call_bind; [exact I|discriminate|].
    intros []. exists false. split; [reflexivity|].
    eapply tracks_bind; [apply socket_connect_pace|].
    intros fd owed ->. apply tracks_ret; [exact I|reflexivity].
  - apply tracks_call_bind; [exact I|discriminate|].
    intros w. exists false. split; [reflexivity|]. destruct (w <=? 0).
    + apply tracks_call_bind; [exact I|discriminate|].
      intros []. exists false. split; [reflexivity|].
      eapply tracks_bind; [apply socket_connect_pace|].
      intros fd owed ->. apply tracks_ret; [exact I|reflexivity].
    + apply tracks_ret; [exact I|reflexivity].
Qed.

Lemma main_loop_pace sl src_host src_port dst_host dst_port :
  tracks pace_step (main_loop sl src_host src_port dst_host dst_port) false
    (fun _ => True) (fun _ _ => True).
Proof.
  unfold main_loop.
  eapply tracks_bind; [apply socket_connect_pace|]. intros d owed ->.
  eapply tracks_bind; [apply socket_connect_pace|]. intros s' owed ->.
  cbv zeta. eapply tracks_bind with (mid := fun _ _ => False); [|intros _ _ []].
  apply tracks_iter with (Inv := fun _ owed => owed = false); [reflexivity|].
  intros st owed ->.
  eapply tracks_weaken; [apply relay_step_pace|auto|].
  intros [st'|x] owed H; exact H.
Qed.

(** The attempts are paced.  In every run of [main_loop], a [socket] or a
    [connect] that failed is followed by nothing but its warning and a
    [sleep] of [RETRY_SLEEP] seconds before the next call of any kind, so
    that no two attempts follow a failure without that pause between them;
    and the run sleeps at no other point. *)
Theorem main_loop_retries_are_paced sl src_host src_port dst_host dst_port
    fuel s :
  exists owed,
    feed pace_step false
      (events (exec fuel (main_loop sl src_host src_port dst_host dst_port) s))
    = Some owed.
Proof.
  destruct (tracks_run fuel s
              (main_loop_pace sl src_host src_port dst_host dst_port))
    as [owed [E _]].
  exists owed. exact E.
Qed.

Lemma pace_step_refuses :
  feed pace_step false
    [Did (Socket AF_INET SOCK_STREAM 0) (-1);
     Did (Socket AF_INET SOCK_STREAM 0) 3] = None /\
  feed pace_step false
    [Did (Socket AF_INET SOCK_STREAM 0) (-1); Did (Sleep 0) tt] = None.
Proof. split; reflexivity. Qed.

(** ** The calls of the relay loop *)

(** Every call of every run of [main_loop] is one of these: the calls of
    [socket_connect] for one of the two endpoints (sockets of family
    [AF_INET] and type [SOCK_STREAM], timeouts of [SOCKET_TIMEOUT] seconds,
    the resolution of the host name of the endpoint, connects to its port,
    sleeps of [RETRY_SLEEP] seconds, warnings and errors, [exit(1)]), a
    [read] of [BUFFER_SIZE] bytes, a [write], a [close].  There is no other
    call, and none the C standard leaves undefined. *)
Theorem main_loop_calls sl src_host src_port dst_host dst_port fuel s :
  Forall (relay_item sl src_host src_port dst_host dst_port)
    (events (exec fuel (main_loop sl src_host src_port dst_host dst_port) s)).
Proof. apply all_run, main_loop_items. Qed.

(** ** The only way out of the relay loop *)

Lemma sat_both R (t : itree sysE R) (P P' : trace -> Prop)
    (Q Q' : R -> trace -> Prop) :
  sat t P Q -> sat t P' Q' ->
  sat t (fun tr => P tr /\ P' tr) (fun x tr => Q x tr /\ Q' x tr).
Proof.
  intros H H' fuel s. destruct (H fuel s) as [H1 H2], (H' fuel s) as [H3 H4].
  split; auto.
Qed.

Lemma reconnect_halts R sl host port (mk : Z -> R) :
  sat (fd <- socket_connect sl host port ;; Ret (mk fd)) (halts_justified sl)
    (fun _ => Forall harmless).
Proof.
  eapply sat_bind; [apply socket_connect_halts|auto|].
  intros fd tr1 H1. apply sat_ret; rewrite app_nil_r; [left|]; exact H1.
Qed.

Lemma relay_step_halts sl src_host src_port dst_host dst_port st :
  sat (relay_step sl src_host src_port dst_host dst_port st)
    (halts_justified sl) (fun _ => Forall harmless).
Proof.
  unfold relay_step.
  apply sat_call_bind; [left; constructor|discriminate|]. intros [rv data].
  cbn iota beta. past_call sl. destruct (rv <=? 0).
  - apply sat_call_bind; [left; constructor|discriminate|]. intros [].
    past_call sl. apply reconnect_halts.
  - apply sat_call_bind; [left; constructor|discriminate|]. intros w.
    past_call sl. destruct (w <=? 0).
    + apply sat_call_bind; [left; constructor|discriminate|]. intros [].
      past_call sl. apply reconnect_halts.
    + apply sat_ret; [left|]; constructor.
Qed.

Lemma main_loop_halts sl src_host src_port dst_host dst_port :
  sat (main_loop sl src_host src_port dst_host dst_port) (halts_justified sl)
    (fun _ _ => False).
Proof.
  unfold main_loop.
  eapply sat_bind; [apply socket_connect_halts|auto|]. intros d tr1 H1.
  apply sat_weaken with (P := halts_justified sl) (Q := fun _ _ => False);
    [|intros; apply justified_app; assumption|intros ? ? []].
  eapply sat_bind; [apply socket_connect_halts|auto|]. intros s' tr2 H2.
  apply sat_weaken with (P := halts_justified sl) (Q := fun _ _ => False);
    [|intros; apply justified_app; assumption|intros ? ? []].
  cbv zeta. apply sat_noreturn_bind.
  apply sat_iter with (Inv := fun _ tr => Forall harmless tr); [constructor|].
  intros st tr Htr.
  eapply sat_weaken;
    [apply (sat_both
              (relay_step_halts sl src_host src_port dst_host dst_port st)
              (relay_step_continues sl src_host src_port dst_host dst_port st))
    | |]; cbn beta.
  - intros tr3 [H _]. apply justified_app; assumption.
  - intros lr tr3 [H [st' ->]]. apply Forall_app. auto.
Qed.

(** Once entered, the relay loop is left in one way only: [socket_connect]
    terminates the process with status 1 on one of its fatal causes.  No
    run of [main_loop] returns, none does anything undefined, and no failure
    of [read] or [write] ends the process. *)
Theorem main_loop_stops_by_exit_only sl src_host src_port dst_host dst_port
    fuel s :
  match out (exec fuel (main_loop sl src_host src_port dst_host dst_port) s) with
  | Returned _ | Crashed => False
  | Exited status =>
      status = 1 /\
      dies_of sl
        (events (exec fuel (main_loop sl src_host src_port dst_host dst_port) s))
  | Pending | OutOfFuel => True
  end.
Proof.
  destruct (main_loop_halts sl src_host src_port dst_host dst_port fuel s)
    as [Hj Hr].
  pose proof (exec_stopped fuel
    (main_loop sl src_host src_port dst_host dst_port) s) as Hs.
  destruct (out (exec fuel (main_loop sl src_host src_port dst_host dst_port) s))
    as [x|status| | |]; auto.
  - exact (Hr x eq_refl).
  - destruct (justified_ends Hj Hs) as [Hd He]. split; [|exact Hd].
    cbn in He. injection He as ->. reflexivity.
  - destruct Hs as [what Hs]. destruct (justified_ends Hj Hs) as [_ He].
    discriminate He.
Qed.

(** ** How a run of [main] stops *)

Lemma ends_of_harmless args R (t : itree sysE R) :
  all harmless t -> sat t (ends_of args) (fun _ _ => True).
Proof.
  intros H. eapply sat_weaken; [exact H| |]; cbn beta; [|auto].
  intros tr Htr. left. exists false. left. exact Htr.
Qed.

Lemma usage_error_ends args sl format fargs :
  sat (print_usage ;; xlog sl LOG_ERR format fargs ;; Ret 2) (ends_of args)
    (fun _ _ => True).
Proof.
  apply ends_of_harmless. unfold print_usage, printf.
  apply all_bind; [apply all_call; [intros; split; cbn; tauto|discriminate]|].
  intros _. apply all_bind; [|intros; apply all_ret].
  apply all_xlog, log_harmless.
Qed.

Lemma ends_of_tail arg args R (t : itree sysE R) :
  sat t (ends_of args) (fun _ _ => True) ->
  sat t (ends_of (arg :: args)) (fun _ _ => True).
Proof.
  intros H. eapply sat_weaken; [exact H| |]; cbn beta; [|auto].
  intros tr [Hj|[Hb ->]]; [left; exact Hj|right].
  split; [|reflexivity]. destruct args; [discriminate Hb|exact Hb].
Qed.

Lemma dangling_ends arg :
  starts_with_dash arg = true ->
  Ascii.eqb (second_char arg) "s" || Ascii.eqb (second_char arg) "d" = true ->
  after_flag arg = EmptyString ->
  sat (@undefined Z "strtoul(NULL, NULL, 10)") (ends_of [arg])
    (fun _ _ => True).
Proof.
  intros H1 H2 H3. apply sat_undefined.
  - left. exists false. left. constructor.
  - right. split; [|reflexivity]. unfold bare_port_flag. cbn [last].
    rewrite H1, H2, H3. reflexivity.
Qed.

Lemma scan_args_ends args :
  forall sl sh dh sp dp,
    sat (scan_args args sl sh dh sp dp) (ends_of args) (fun _ _ => True).
Proof.
  induction args as [args IH] using (induction_ltof1 _ (@List.length string)).
  unfold ltof in IH. intros sl sh dh sp dp.
  destruct args as [|arg args].
  - rewrite scan_end. destruct sh as [src_host|]; [destruct dh as [dst_host|]|];
      try apply usage_error_ends.
    apply sat_noreturn_bind.
    eapply sat_weaken; [apply main_loop_halts| |auto].
    intros tr H. left. exists sl. exact H.
  - cbn [scan_args]. destruct (starts_with_dash arg) eqn:Hd.
    + destruct (Ascii.eqb (second_char arg) "h").
      { apply ends_of_harmless. unfold print_help, printf.
        apply all_bind; [|intros; apply all_ret].
        apply all_call; [intros; split; cbn; tauto|discriminate]. }
      destruct (Ascii.eqb (second_char arg) "v").
      { apply ends_of_harmless. unfold printf.
        apply all_bind; [|intros; apply all_ret].
        apply all_call; [intros; split; cbn; tauto|discriminate]. }
      destruct (Ascii.eqb (second_char arg) "l").
      { apply ends_of_tail, IH. cbn. lia. }
      destruct (Ascii.eqb (second_char arg) "s") eqn:Es.
      { destruct (after_flag arg) eqn:Ea; [|apply ends_of_tail, IH; cbn; lia].
        destruct args as [|value args].
        - apply dangling_ends; [exact Hd|rewrite Es; reflexivity|exact Ea].
        - apply ends_of_tail, ends_of_tail, IH. cbn. lia. }
      destruct (Ascii.eqb (second_char arg) "d") eqn:Ed.
      { destruct (after_flag arg) eqn:Ea; [|apply ends_of_tail, IH; cbn; lia].
        destruct args as [|value args].
        - apply dangling_ends; [exact Hd|rewrite Ed; apply orb_true_r|exact Ea].
        - apply ends_of_tail, ends_of_tail, IH. cbn. lia. }
      apply usage_error_ends.
    + destruct sh; [destruct dh|]; apply ends_of_tail, IH; cbn; lia.
Qed.

Lemma main_ends argv fuel s :
  events (exec (S fuel) (main argv) s) =
    Did (Signal SIGPIPE SIG_IGN) tt ::
    events (exec fuel (scan_args (tl argv) false None None 30002 30001) s) /\
  ends_of (tl argv)
    (events (exec fuel (scan_args (tl argv) false None None 30002 30001) s)).
Proof.
  rewrite exec_main. split; [reflexivity|].
  apply (scan_args_ends (tl argv) false None None 30002 30001 fuel s).
Qed.

(** When a run of [main] ends with [exit], the status is 1 and the process
    died in [socket_connect] of one of its fatal causes: a timeout that
    could not be set or a host name without an IPv4 address, followed by
    one error line and the [exit].  The scan of the command line never
    calls [exit]. *)
Theorem main_exits_with_status_1 argv fuel s status :
  out (exec fuel (main argv) s) = Exited status ->
  status = 1 /\ exists sl, dies_of sl (events (exec fuel (main argv) s)).
Proof.
  intros Ho. pose proof (exec_stopped fuel (main argv) s) as Hs.
  rewrite Ho in Hs. destruct fuel as [|fuel]; [discriminate Ho|].
  destruct (main_ends argv fuel s) as [E He]. rewrite E in Hs |- *.
  destruct He as [[sl Hj]|[_ Et]].
  - assert (Hj' : halts_justified sl
      (Did (Signal SIGPIPE SIG_IGN) tt ::
       events (exec fuel (scan_args (tl argv) false None None 30002 30001) s))).
    { apply justified_cons; [split; cbn; tauto|exact Hj]. }
    destruct (justified_ends Hj' Hs) as [Hd Hx]. split; [|exists sl; exact Hd].
    cbn in Hx. injection Hx as ->. reflexivity.
  - exfalso. rewrite Et in Hs. destruct Hs as [pre Hp].
    change [Did (Signal SIGPIPE SIG_IGN) tt;
            Halt (Undefined "strtoul(NULL, NULL, 10)")]
      with ([Did (Signal SIGPIPE SIG_IGN) tt] ++
            [Halt (Undefined "strtoul(NULL, NULL, 10)")]) in Hp.
    apply app_inj_tail in Hp as [_ Hp]. discriminate Hp.
Qed.

Lemma main_exits_with_status_1_witness :
  1 = 1 /\
  exists sl,
    dies_of sl
      (events (exec 10 (main ["remote-dump1090"; "src"; "dst"]%string)
                 [AInt 3; AInt (-1)])).
Proof.
  apply (@main_exits_with_status_1 ["remote-dump1090"; "src"; "dst"]%string
           10 [AInt 3; AInt (-1)] 1).
  reflexivity.
Defined.

(** A run of [main] does something undefined in one case only: the last
    argument is [-s] or [-d] with no value attached, and the scan hands the
    null pointer [argv[argc]] to [strtoul].  It has then done nothing but
    ignore [SIGPIPE]: no output, no call to the network. *)
Theorem main_crashes_on_bare_port_flag_only argv fuel s :
  out (exec fuel (main argv) s) = Crashed ->
  bare_port_flag (last (tl argv) EmptyString) = true /\
  events (exec fuel (main argv) s) =
    [Did (Signal SIGPIPE SIG_IGN) tt;
     Halt (Undefined "strtoul(NULL, NULL, 10)")].
Proof.
  intros Ho. pose proof (exec_stopped fuel (main argv) s) as Hs.
  rewrite Ho in Hs. destruct fuel as [|fuel]; [discriminate Ho|].
  destruct (main_ends argv fuel s) as [E He]. rewrite E in Hs |- *.
  destruct He as [[sl Hj]|[Hb Et]].
  - exfalso. destruct Hs as [what Hs].
    assert (Hj' : halts_justified sl
      (Did (Signal SIGPIPE SIG_IGN) tt ::
       events (exec fuel (scan_args (tl argv) false None None 30002 30001) s))).
    { apply justified_cons; [split; cbn; tauto|exact Hj]. }
    destruct (justified_ends Hj' Hs) as [_ Hx]. discriminate Hx.
  - rewrite Et. split; [exact Hb|reflexivity].
Qed.

Lemma main_crashes_on_bare_port_flag_only_witness :
  bare_port_flag (last (tl ["remote-dump1090"; "host"; "-d"]%string) EmptyString)
    = true /\
  events (exec 10 (main ["remote-dump1090"; "host"; "-d"]%string) []) =
    [Did (Signal SIGPIPE SIG_IGN) tt;
     Halt (Undefined "strtoul(NULL, NULL, 10)")].
Proof.
  apply (@main_crashes_on_bare_port_flag_only
           ["remote-dump1090"; "host"; "-d"]%string 10 []).
  reflexivity.
Defined.

Lemma main_leaves_witness :
  exists tr,
    events (exec 10 (main ["remote-dump1090"; "-x"]%string) []) =
      Did (Signal SIGPIPE SIG_IGN) tt :: tr /\
    leaves 2 tr.
Proof.
  apply (@main_leaves ["remote-dump1090"; "-x"]%string 10 [] 2).
  reflexivity.
Defined.

(** ** Host names alone on the command line *)

Lemma scan_more_positionals more :
  forall sl src_host dst_host sp dp,
    Forall (fun arg => starts_with_dash arg = false) more ->
    scan_args more sl (Some src_host) (Some dst_host) sp dp =
    scan_args [] sl (Some src_host) (Some dst_host) sp dp.
Proof.
  induction more as [|arg more IH]; intros sl src_host dst_host sp dp H;
    [reflexivity|].
  inversion H as [|? ? Ha Hm]; subst.
  rewrite (scan_positional _ _ _ _ _ _ _ Ha). apply IH, Hm.
Qed.

(** With host names alone on the command line, [main] relays from the
    first host on port 30002 to the second on port 30001, with messages on
    standard error; the arguments after the second host name, when they
    are no flags, are ignored without a word. *)
Theorem hosts_alone_use_the_default_ports prog src_host dst_host more fuel s :
  starts_with_dash src_host = false ->
  starts_with_dash dst_host = false ->
  Forall (fun arg => starts_with_dash arg = false) more ->
  exec (S fuel) (main (prog :: src_host :: dst_host :: more)) s =
  before (Did (Signal SIGPIPE SIG_IGN) tt)
    (map_out (fun _ => 0)
       (exec fuel (main_loop false src_host 30002 dst_host 30001) s)).
Proof.
  intros Hs Hd Hm. rewrite exec_main. cbn [tl].
  rewrite (scan_positional _ _ _ _ _ _ _ Hs). cbn iota.
  rewrite (scan_positional _ _ _ _ _ _ _ Hd). cbn iota.
  rewrite (@scan_more_positionals more false src_host dst_host 30002 30001 Hm).
  rewrite relay_entered. reflexivity.
Qed.

Lemma hosts_alone_use_the_default_ports_witness :
  exec 4 (main ["remote-dump1090"; "radar"; "feed"; "spare"]%string) [AInt 3] =
  before (Did (Signal SIGPIPE SIG_IGN) tt)
    (map_out (fun _ => 0)
       (exec 3 (main_loop false "radar" 30002 "feed" 30001) [AInt 3])).
Proof.
  apply (@hosts_alone_use_the_default_ports "remote-dump1090" "radar" "feed"
           ["spare"%string] 3 [AInt 3]);
    [reflexivity|reflexivity|repeat constructor].
Defined.

(** ** The port of the connection *)

Lemma connector_ports sl host port tr :
  Forall (connector_item sl host port) tr ->
  Forall (fun p => p = port mod 65536) (connect_ports tr).
Proof.
  induction 1 as [|it tr Hi _ IH]; [constructor|].
  destruct Hi as [r|fd o r|r|fd a r| |priority format args it Hp Hin|];
    cbn; auto.
  destruct sl; cbn in Hin; decompose [or] Hin; subst; try tauto; cbn; auto.
Qed.

(** [socket_connect] does not check its port: every [connect] it makes
    carries the port modulo 65536, so that a port outside 0..65535 is
    connected as another port without a word. *)
Theorem socket_connect_port_wraps sl host port fuel s :
  Forall (fun p => p = port mod 65536 /\ 0 <= p < 65536)
    (connect_ports (events (exec fuel (socket_connect sl host port) s))).
Proof.
  pose proof (connector_ports
    (all_run fuel s (socket_connect_items sl host port))) as H.
  revert H. apply Forall_impl. intros p ->. split; [reflexivity|].
  apply Z.mod_pos_bound. lia.
Qed.






(** ** SIGPIPE *)

Lemma log_no_signal sl priority format args it :
  In it (log_items sl priority format args) -> no_signal it.
Proof. destruct sl; cbn; intros H; decompose [or] H; subst; cbn; tauto. Qed.

Lemma relay_item_no_signal sl src_host src_port dst_host dst_port it :
  relay_item sl src_host src_port dst_host dst_port it -> no_signal it.
Proof.
  assert (G : forall host port it', connector_item sl host port it' ->
                                    no_signal it').
  { intros host port it' [r|fd o r|r|fd a r| |priority format args it'' Hp Hin|];
      try exact I.
    eapply log_no_signal; eassumption. }
  intros [it' H|it' H|fd r|fd bytes r|fd]; try exact I; eapply G; eassumption.
Qed.

Lemma usage_error_no_signal sl format args :
  all no_signal (print_usage ;; xlog sl LOG_ERR format args ;; Ret 2).
Proof.
  unfold print_usage, printf.
  apply all_bind; [apply all_call; [intros; exact I|discriminate]|].
  intros _. apply all_bind; [|intros; apply all_ret].
  apply all_xlog, Forall_forall. intros it. apply log_no_signal.
Qed.

Lemma scan_args_no_signal args :
  forall sl sh dh sp dp, all no_signal (scan_args args sl sh dh sp dp).
Proof.
  induction args as [args IH] using (induction_ltof1 _ (@List.length string)).
  unfold ltof in IH. intros sl sh dh sp dp.
  destruct args as [|arg args].
  - rewrite scan_end. destruct sh as [src_host|]; [destruct dh as [dst_host|]|];
      try apply usage_error_no_signal.
    apply all_bind; [|intros; apply all_ret].
    eapply all_impl; [|apply main_loop_items].
    intros it. apply relay_item_no_signal.
  - cbn [scan_args]. destruct (starts_with_dash arg).
    + destruct (Ascii.eqb (second_char arg) "h").
      { unfold print_help, printf. apply all_bind; [|intros; apply all_ret].
        apply all_call; [intros; exact I|discriminate]. }
      destruct (Ascii.eqb (second_char arg) "v").
      { unfold printf. apply all_bind; [|intros; apply all_ret].
        apply all_call; [intros; exact I|discriminate]. }
      destruct (Ascii.eqb (second_char arg) "l").
      { apply IH. cbn. lia. }
      destruct (Ascii.eqb (second_char arg) "s").
      { destruct (after_flag arg); [|apply IH; cbn; lia].
        destruct args as [|value args];
          [apply all_undefined; exact I|apply IH; cbn; lia]. }
      destruct (Ascii.eqb (second_char arg) "d").
      { destruct (after_flag arg); [|apply IH; cbn; lia].
        destruct args as [|value args];
          [apply all_undefined; exact I|apply IH; cbn; lia]. }
      apply usage_error_no_signal.
    + destruct sh; [destruct dh|]; apply IH; cbn; lia.
Qed.

(** The first thing [main] does, whatever its arguments, is to have
    [SIGPIPE] ignored; and no run changes the disposition of a signal after
    that.  A [write] to a peer that is gone therefore fails in the relay
    loop instead of killing the process. *)
Theorem main_ignores_sigpipe argv fuel s :
  exists tr,
    events (exec (S fuel) (main argv) s) =
      Did (Signal SIGPIPE SIG_IGN) tt :: tr /\
    Forall no_signal tr.
Proof.
  rewrite exec_main. eexists. split; [reflexivity|].
  apply (all_run fuel s
           (scan_args_no_signal (tl argv) false None None 30002 30001)).
Qed.

(** ** Options and host names in any order *)

(** What an option does to the locals of [main] does not depend on the
    host names seen so far, nor on what follows. *)
Lemma scan_group group :
  option_group group ->
  forall sl sp dp, exists sl' sp' dp',
    forall sh dh rest,
      scan_args (group ++ rest) sl sh dh sp dp =
      scan_args rest sl' sh dh sp' dp'.
Proof.
  intros [arg Hd Hl|arg Hd [Hc|Hc] Ha|arg value Hd [Hc|Hc] Ha] sl sp dp.
  - exists true, sp, dp. intros sh dh rest. apply scan_syslog; assumption.
  - exists sl, (to_int (strtoul (after_flag arg))), dp. intros sh dh rest.
    cbn [app scan_args]. rewrite Hd, Hc. cbn.
    destruct (after_flag arg); [contradiction|reflexivity].
  - exists sl, sp, (to_int (strtoul (after_flag arg))). intros sh dh rest.
    cbn [app scan_args]. rewrite Hd, Hc. cbn.
    destruct (after_flag arg); [contradiction|reflexivity].
  - exists sl, (to_int (strtoul value)), dp. intros sh dh rest.
    cbn [app scan_args]. rewrite Hd, Hc, Ha. reflexivity.
  - exists sl, sp, (to_int (strtoul value)). intros sh dh rest.
    cbn [app scan_args]. rewrite Hd, Hc, Ha. reflexivity.
Qed.

Lemma scan_groups groups :
  Forall option_group groups ->
  forall sl sp dp, exists sl' sp' dp',
    forall sh dh rest,
      scan_args (List.concat groups ++ rest) sl sh dh sp dp =
      scan_args rest sl' sh dh sp' dp'.
Proof.
  induction 1 as [|group groups Hg _ IH]; intros sl sp dp.
  - exists sl, sp, dp. reflexivity.
  - destruct (scan_group Hg sl sp dp) as (sl1 & sp1 & dp1 & H1).
    destruct (IH sl1 sp1 dp1) as (sl2 & sp2 & dp2 & H2).
    exists sl2, sp2, dp2. intros sh dh rest.
    cbn [List.concat]. rewrite <- app_assoc, H1. apply H2.
Qed.

(** The scan of the command line does not care where the host names stand
    among the options: before them, after them or between them, the run
    is the same.  (The usage text shows the options first.) *)
Theorem options_and_hosts_in_any_order prog before_src between after_dst
    src_host dst_host :
  Forall option_group before_src ->
  Forall option_group between ->
  Forall option_group after_dst ->
  starts_with_dash src_host = false ->
  starts_with_dash dst_host = false ->
  main (prog :: List.concat before_src ++
          src_host :: List.concat between ++ dst_host :: List.concat after_dst) =
  main (prog :: src_host :: dst_host ::
          List.concat before_src ++ List.concat between ++ List.concat after_dst).
Proof.
  intros H1 H2 H3 Hs Hd. unfold main. f_equal. cbn [tl].
  destruct (scan_groups H1 false 30002 30001) as (sl1 & sp1 & dp1 & E1).
  destruct (scan_groups H2 sl1 sp1 dp1) as (sl2 & sp2 & dp2 & E2).
  destruct (scan_groups H3 sl2 sp2 dp2) as (sl3 & sp3 & dp3 & E3).
  assert (E3' : forall sh dh,
    scan_args (List.concat after_dst) sl2 sh dh sp2 dp2 =
    scan_args [] sl3 sh dh sp3 dp3).
  { intros sh dh. rewrite <- (E3 sh dh []), app_nil_r. reflexivity. }
  rewrite E1, (scan_positional _ _ _ _ _ _ _ Hs). cbn iota.
  rewrite E2, (scan_positional _ _ _ _ _ _ _ Hd). cbn iota.
  rewrite E3'.
  rewrite (scan_positional _ _ _ _ _ _ _ Hs). cbn iota.
  rewrite (scan_positional _ _ _ _ _ _ _ Hd). cbn iota.
  rewrite E1, E2, E3'. reflexivity.
Qed.

Lemma options_and_hosts_in_any_order_witness :
  main ["remote-dump1090"; "-l"; "radar"; "-s"; "30005"; "feed"; "-d30004"]%string =
  main ["remote-dump1090"; "radar"; "feed"; "-l"; "-s"; "30005"; "-d30004"]%string.
Proof.
  apply (@options_and_hosts_in_any_order "remote-dump1090"
           [["-l"]]%string [["-s"; "30005"]]%string [["-d30004"]]%string
           "radar" "feed").
  - repeat constructor.
  - constructor; [|constructor].
    apply og_next; [reflexivity|left; reflexivity|reflexivity].
  - constructor; [|constructor].
    apply og_attached; [reflexivity|right; reflexivity|discriminate].
  - reflexivity.
  - reflexivity.
Defined.
